(** * apple-mcp: the safety layer of the Mail tools, embedded and verified

    A shallow embedding of [utils/security.ts], [utils/database.ts] and of
    the mail operations ([getUnreadMails], [searchMails], [sendMail]),
    followed by the properties the specification states about them.

    Conventions.
    - A JavaScript string is the list of its UTF-16 code units ([list N]);
      [String.length] is [length], and regular expressions without the [u]
      flag work on code units.
    - A JavaScript number is [NaN], an infinity or a finite rational; every
      finite double is a rational and [Math.floor], [Math.min] and [<] are
      exact on doubles, so no rounding is involved.  The sign of zero is not
      tracked.
    - Mutable module state (rate limiters, audit log) and the calls made to
      the outside world are threaded explicitly through a state/exception
      monad. *)

From Stdlib Require Import ZArith NArith List Bool Lia String Ascii.
From Stdlib Require Import QArith Qround DecimalString.
From stdpp Require Import gmap.
Import ListNotations.

Set Implicit Arguments.
Set Warnings "-register-all,-abstract-large-number".

(* ===================================================================== *)
(** ** JavaScript strings *)
(* ===================================================================== *)

Module JS.

Abbreviation jsstring := (list N).

(** A literal written in the source; the quote character is written as a
    code unit, see [DQUOTE]. *)
Definition js (s : string) : jsstring := List.map N_of_ascii (list_ascii_of_string s).

Definition TAB : N := 9.
Definition LF : N := 10.
Definition CR : N := 13.
Definition DQUOTE : N := 34.
Definition DOLLAR : N := 36.
Definition AMP : N := 38.
Definition SQUOTE : N := 39.
Definition COMMA : N := 44.
Definition COLON : N := 58.
Definition QMARK : N := 63.
Definition LBRACKET : N := 91.
Definition BACKSLASH : N := 92.
Definition BACKTICK : N := 96.
Definition LBRACE : N := 123.
Definition RBRACE : N := 125.

Fixpoint eqb_string (a b : jsstring) : bool :=
  match a, b with
  | [], [] => true
  | x :: a', y :: b' => N.eqb x y && eqb_string a' b'
  | _, _ => false
  end.

(** [WhiteSpace] and [LineTerminator] of ECMAScript: what [String.prototype.trim]
    strips and what [\s] matches. *)
Definition is_whitespace (c : N) : bool :=
  (N.leb 9 c && N.leb c 13) || N.eqb c 32 || N.eqb c 160 || N.eqb c 5760
  || (N.leb 8192 c && N.leb c 8202) || N.eqb c 8232 || N.eqb c 8233
  || N.eqb c 8239 || N.eqb c 8287 || N.eqb c 12288 || N.eqb c 65279.

Fixpoint trimStart (s : jsstring) : jsstring :=
  match s with
  | [] => []
  | c :: t => if is_whitespace c then trimStart t else s
  end.

Definition trimEnd (s : jsstring) : jsstring := rev (trimStart (rev s)).

Definition trim (s : jsstring) : jsstring := trimEnd (trimStart s).

Fixpoint startsWith (s p : jsstring) : bool :=
  match p, s with
  | [], _ => true
  | y :: p', x :: s' => N.eqb x y && startsWith s' p'
  | _ :: _, [] => false
  end.

Fixpoint includes (s p : jsstring) : bool :=
  startsWith s p ||
  match s with
  | [] => false
  | _ :: t => includes t p
  end.

(** [s.split(sep)] for a one-character separator. *)
Fixpoint split (sep : N) (s : jsstring) : list jsstring :=
  match s with
  | [] => [[]]
  | c :: t =>
      if N.eqb c sep then [] :: split sep t
      else match split sep t with
           | h :: r => (c :: h) :: r
           | [] => [[c]]
           end
  end.

Fixpoint join (sep : jsstring) (l : list jsstring) : jsstring :=
  match l with
  | [] => []
  | [x] => x
  | x :: r => x ++ sep ++ join sep r
  end.

(** [s.substring(0, n)] *)
Definition substring0 (n : nat) (s : jsstring) : jsstring := firstn n s.

(** [s.replace(/c/g, r)] for a pattern that is one literal character and a
    replacement text without [$]: every occurrence is replaced, and the
    inserted text is not scanned again. *)
Definition replace_char_g (c : N) (r : jsstring) (s : jsstring) : jsstring :=
  flat_map (fun x => if N.eqb x c then r else [x]) s.

(** [GetSubstitution] of ECMAScript for a string pattern (no capture
    groups): [$$], [$&], [$`] and [$'] are expanded, every other [$] is
    literal. *)
Fixpoint getSubstitution (matched before after repl : jsstring) : jsstring :=
  match repl with
  | [] => []
  | x :: t =>
      if N.eqb x DOLLAR then
        match t with
        | [] => [x]
        | c :: rest =>
            if N.eqb c DOLLAR then DOLLAR :: getSubstitution matched before after rest
            else if N.eqb c AMP then matched ++ getSubstitution matched before after rest
            else if N.eqb c BACKTICK then before ++ getSubstitution matched before after rest
            else if N.eqb c SQUOTE then after ++ getSubstitution matched before after rest
            else x :: getSubstitution matched before after t
        end
      else x :: getSubstitution matched before after t
  end.

(** [s.replace(c, repl)] for a one-character string pattern: only the first
    occurrence is replaced; [seen] holds, reversed, what was scanned. *)
Fixpoint replace_first_from (seen : jsstring) (c : N) (repl s : jsstring) : jsstring :=
  match s with
  | [] => rev seen
  | x :: t =>
      if N.eqb x c
      then rev seen ++ getSubstitution [c] (rev seen) t repl ++ t
      else replace_first_from (x :: seen) c repl t
  end.

Definition replace_first (c : N) (repl s : jsstring) : jsstring :=
  replace_first_from [] c repl s.

(** *** Regular expressions of the shape used by [DANGEROUS_PATTERNS]:
    a sequence of literal characters and [\s+], with the [i] flag. *)

Inductive re_item :=
  | Chr (c : N)
  | Ws1.

(** [Canonicalize] for the [i] flag without [u]: a character of code 128 or
    more is never identified with an ASCII one, so for an ASCII pattern
    character only the ASCII letters fold. *)
Definition ascii_upper (c : N) : N :=
  if N.leb 97 c && N.leb c 122 then (c - 32)%N else c.

Definition chr_eq_i (p x : N) : bool := N.eqb (ascii_upper p) (ascii_upper x).

Fixpoint match_here (p : list re_item) (s : jsstring) {struct s} : bool :=
  match p with
  | [] => true
  | Chr c :: p' =>
      match s with
      | [] => false
      | x :: s' => chr_eq_i c x && match_here p' s'
      end
  | Ws1 :: p' =>
      match s with
      | [] => false
      | x :: s' => is_whitespace x && (match_here (Ws1 :: p') s' || match_here p' s')
      end
  end.

(** [pattern.test(s)] for a pattern without the [g] flag. *)
Fixpoint test (p : list re_item) (s : jsstring) : bool :=
  match_here p s ||
  match s with
  | [] => false
  | _ :: t => test p t
  end.

Definition lit (s : string) : list re_item := List.map Chr (js s).

(** [s.match(/\{([^}]+)\}/g)]: the successive leftmost matches.  A match
    starts at an opening brace and runs to the first closing brace after it,
    with at least one character between them (an opening brace inside the
    group is an ordinary character).  [cur] holds, reversed, the characters
    read since the opening brace under consideration.  A missing result
    ([null]) is the empty list. *)
Fixpoint brace_groups_from (cur : option jsstring) (s : jsstring) : list jsstring :=
  match s with
  | [] => []
  | c :: t =>
      match cur with
      | None =>
          if N.eqb c LBRACE then brace_groups_from (Some []) t
          else brace_groups_from None t
      | Some acc =>
          if N.eqb c RBRACE then
            match acc with
            | [] => brace_groups_from None t
            | _ :: _ => (LBRACE :: rev acc ++ [RBRACE]) :: brace_groups_from None t
            end
          else brace_groups_from (Some (c :: acc)) t
      end
  end.

Definition brace_groups (s : jsstring) : list jsstring := brace_groups_from None s.

End JS.

Import JS.

(* ===================================================================== *)
(** ** JavaScript numbers and values *)
(* ===================================================================== *)

Module Num.

Inductive number :=
  | NaN
  | Inf (negative : bool)
  | Fin (q : Q).

Definition of_Z (z : Z) : number := Fin (inject_Z z).

Definition isNaN (x : number) : bool :=
  match x with NaN => true | _ => false end.

Definition floor (x : number) : number :=
  match x with
  | Fin q => of_Z (Qfloor q)
  | _ => x
  end.

Definition Qlt_bool (a b : Q) : bool := negb (Qle_bool b a).

(** [a < b]; false as soon as one side is [NaN]. *)
Definition ltb (a b : number) : bool :=
  match a, b with
  | NaN, _ | _, NaN => false
  | Inf true, Inf true => false
  | Inf true, _ => true
  | _, Inf true => false
  | Inf false, _ => false
  | _, Inf false => true
  | Fin p, Fin q => Qlt_bool p q
  end.

(** [Math.min(a, b)] *)
Definition min (a b : number) : number :=
  match a, b with
  | NaN, _ | _, NaN => NaN
  | _, _ => if ltb b a then b else a
  end.

Definition is_digit (c : N) : bool := N.leb 48 c && N.leb c 57.

Fixpoint digits_value (acc : Z) (s : jsstring) : Z :=
  match s with
  | [] => acc
  | c :: t => if is_digit c then digits_value (10 * acc + Z.of_N (c - 48)) t else acc
  end.

(** [parseInt(s, 10)]: leading white space, an optional sign, then the
    longest run of decimal digits; [NaN] when there is no digit.  The value
    is the exact integer (beyond 2^53 JavaScript would round it). *)
Definition parseInt10 (s : jsstring) : number :=
  let s := trimStart s in
  let '(neg, body) :=
    match s with
    | 45%N :: t => (true, t)
    | 43%N :: t => (false, t)
    | _ => (false, s)
    end in
  match body with
  | c :: _ =>
      if is_digit c
      then of_Z (if neg : bool then - digits_value 0 body else digits_value 0 body)
      else NaN
  | [] => NaN
  end.

(** [String(n)] for an integer. *)
Definition string_of_Z (z : Z) : jsstring := js (NilZero.string_of_int (Z.to_int z)).

End Num.

Import Num.

Inductive jsvalue :=
  | JUndefined
  | JNull
  | JBool (b : bool)
  | JNum (n : number)
  | JStr (s : jsstring)
  | JArr (l : list jsvalue)
  | JObj (fields : list (jsstring * jsvalue)).

Definition truthy (v : jsvalue) : bool :=
  match v with
  | JUndefined | JNull => false
  | JBool b => b
  | JNum NaN => false
  | JNum (Inf _) => true
  | JNum (Fin q) => negb (Qeq_bool q 0)
  | JStr s => match s with [] => false | _ => true end
  | JArr _ | JObj _ => true
  end.

(** [a || b] *)
Definition js_or (a b : jsvalue) : jsvalue := if truthy a then a else b.

(** Errors that can be thrown. *)
Inductive JsError :=
  | ValidationError (message : jsstring) (field : option jsstring)
  | Error (message : jsstring)
  | TypeError (message : jsstring)
  | ZodError (issues : list jsstring).

(** [error.message]; for a [ZodError] the serialised issue list, of which
    only the messages are kept. *)
Definition error_message (e : JsError) : jsstring :=
  match e with
  | ValidationError m _ => m
  | Error m => m
  | TypeError m => m
  | ZodError issues => join (js ", ") issues
  end.

Inductive result (A : Type) :=
  | Ok (a : A)
  | Throw (e : JsError).
Arguments Ok {A} a.
Arguments Throw {A} e.

(* ===================================================================== *)
(** ** utils/security.ts *)
(* ===================================================================== *)

Module Security.

(** *** Escaping *)

Definition escapeAppleScriptString (str : jsstring) : jsstring :=
  replace_char_g TAB (js "\t")
    (replace_char_g CR (js "\r")
      (replace_char_g LF (js "\n")
        (replace_char_g DQUOTE [BACKSLASH; DQUOTE]
          (replace_char_g BACKSLASH [BACKSLASH; BACKSLASH] str)))).

Definition is_identifier_char (c : N) : bool :=
  (N.leb 97 c && N.leb c 122) || (N.leb 65 c && N.leb c 90)
  || (N.leb 48 c && N.leb c 57) || N.eqb c 95.

Definition escapeAppleScriptIdentifier (str : jsstring) : jsstring :=
  List.filter is_identifier_char str.

Definition escapeSqlString (str : jsstring) : jsstring :=
  replace_char_g SQUOTE [SQUOTE; SQUOTE] str.

(** *** Dangerous pattern detection *)

Definition DANGEROUS_PATTERNS : list (list re_item) :=
  [ lit "tell" ++ [Ws1] ++ lit "application" ++ [Ws1] ++ [Chr DQUOTE]
      ++ lit "System" ++ [Ws1] ++ lit "Events" ++ [Chr DQUOTE];
    lit "do" ++ [Ws1] ++ lit "shell" ++ [Ws1] ++ lit "script";
    lit "osascript";
    lit "eval";
    lit "exec";
    lit "system(";
    lit "DELETE" ++ [Ws1] ++ lit "FROM";
    lit "DROP" ++ [Ws1] ++ lit "TABLE";
    lit "UPDATE" ++ [Ws1] ++ lit "SET";
    lit "INSERT" ++ [Ws1] ++ lit "INTO" ].

Definition containsDangerousPattern (input : jsstring) : bool :=
  existsb (fun pattern => test pattern input) DANGEROUS_PATTERNS.

(** *** Rate limiting *)

Record RateLimitEntry := { count : Z; resetAt : Z }.

Record RateLimiter := {
  maxRequests : Z;
  windowMs : Z;
  limits : gmap (list N) RateLimitEntry
}.

Definition newRateLimiter (maxRequests windowMs : Z) : RateLimiter :=
  {| maxRequests := maxRequests; windowMs := windowMs; limits := ∅ |}.

Definition set_limits (rl : RateLimiter) (m : gmap (list N) RateLimitEntry) : RateLimiter :=
  {| maxRequests := maxRequests rl; windowMs := windowMs rl; limits := m |}.

(** [check(key)] at time [now = Date.now()]: the answer and the limiter
    after the call.  [entry.count++] updates the entry held by the map. *)
Definition check (rl : RateLimiter) (now : Z) (key : jsstring) : bool * RateLimiter :=
  match limits rl !! key with
  | Some entry =>
      if (resetAt entry <=? now)%Z then
        (true, set_limits rl (<[key := {| count := 1; resetAt := now + windowMs rl |}]> (limits rl)))
      else if (count entry >=? maxRequests rl)%Z then
        (false, rl)
      else
        (true, set_limits rl (<[key := {| count := count entry + 1; resetAt := resetAt entry |}]> (limits rl)))
  | None =>
      (true, set_limits rl (<[key := {| count := 1; resetAt := now + windowMs rl |}]> (limits rl)))
  end.

Definition reset (rl : RateLimiter) (key : jsstring) : RateLimiter :=
  set_limits rl (delete key (limits rl)).

Record RateLimiters := {
  messages : RateLimiter;
  emails : RateLimiter;
  search : RateLimiter;
  write : RateLimiter;
  global : RateLimiter
}.

Definition rateLimiters : RateLimiters :=
  {| messages := newRateLimiter 10 60000;
     emails := newRateLimiter 20 60000;
     search := newRateLimiter 30 60000;
     write := newRateLimiter 5 60000;
     global := newRateLimiter 100 60000 |}.

(** *** Schemas (the part of zod the validators use) *)

Inductive zcheck :=
  | ZMin (n : nat) (message : jsstring)
  | ZMax (n : nat) (message : jsstring)
  | ZEmail (syntax_ok : jsstring -> bool) (message : jsstring).

Record zschema := {
  zchecks : list zcheck;
  ztransform : option (jsstring -> jsstring)
}.

Definition zissue (c : zcheck) (input : jsstring) : list jsstring :=
  match c with
  | ZMin n m => if Nat.ltb (length input) n then [m] else []
  | ZMax n m => if Nat.ltb n (length input) then [m] else []
  | ZEmail syntax_ok m => if syntax_ok input then [] else [m]
  end.

(** [schema.parse(input)]: every check runs on the input as given; the
    transform runs only when no check has raised an issue. *)
Definition zparse (schema : zschema) (input : jsstring) : result jsstring :=
  match flat_map (fun c => zissue c input) (zchecks schema) with
  | [] =>
      Ok (match ztransform schema with
          | Some f => f input
          | None => input
          end)
  | issues => Throw (ZodError issues)
  end.

Definition searchQuerySchema : zschema :=
  {| zchecks := [ZMin 1 (js "Search query cannot be empty"); ZMax 500 (js "Search query too long")];
     ztransform := Some trim |}.

Definition messageContentSchema : zschema :=
  {| zchecks := [ZMin 1 (js "Message cannot be empty"); ZMax 10000 (js "Message too long")];
     ztransform := None |}.

(** *** Validators *)

(** The body of a [try] that either returns or throws, followed by the
    handler of [validateSearchQuery] and [validateMessageContent]: a
    [ValidationError] is thrown again, anything else is replaced. *)
Definition rethrow_validation (r : result jsstring) (message field : jsstring) : result jsstring :=
  match r with
  | Ok v => Ok v
  | Throw (ValidationError m f) => Throw (ValidationError m f)
  | Throw _ => Throw (ValidationError message (Some field))
  end.

Definition validateSearchQuery (query : jsstring) : result jsstring :=
  rethrow_validation
    (match zparse searchQuerySchema query with
     | Ok validated =>
         if containsDangerousPattern validated
         then Throw (ValidationError (js "Search query contains forbidden patterns")
                       (Some (js "searchQuery")))
         else Ok validated
     | Throw e => Throw e
     end)
    (js "Invalid search query") (js "searchQuery").

Definition validateMessageContent (content : jsstring) : result jsstring :=
  rethrow_validation
    (match zparse messageContentSchema content with
     | Ok validated =>
         if containsDangerousPattern validated
         then Throw (ValidationError (js "Message contains forbidden patterns")
                       (Some (js "message")))
         else Ok validated
     | Throw e => Throw e
     end)
    (js "Invalid message content") (js "message").

Section Email.

(** The syntactic e-mail test of the schema library. *)
Variable zod_email : jsstring -> bool.

Definition emailSchema : zschema :=
  {| zchecks := [ZEmail zod_email (js "Invalid email address");
                 ZMax 254 (js "Email address too long")];
     ztransform := None |}.

Definition validateEmail (email : jsstring) : result jsstring :=
  match zparse emailSchema email with
  | Ok v => Ok v
  | Throw _ => Throw (ValidationError (js "Invalid email address") (Some (js "email")))
  end.

End Email.

(** *** AppleScriptBuilder *)

Record AppleScriptBuilder := { script : list jsstring }.

Definition newAppleScriptBuilder : AppleScriptBuilder := {| script := [] |}.

Definition push (line : jsstring) (b : AppleScriptBuilder) : AppleScriptBuilder :=
  {| script := script b ++ [line] |}.

Definition tell (application : jsstring) (b : AppleScriptBuilder) : AppleScriptBuilder :=
  let safe := escapeAppleScriptString application in
  push (js "tell application " ++ [DQUOTE] ++ safe ++ [DQUOTE]) b.

Definition endTell (b : AppleScriptBuilder) : AppleScriptBuilder :=
  push (js "end tell") b.


Definition raw (line : jsstring) (b : AppleScriptBuilder) : AppleScriptBuilder :=
  push line b.

Definition build (b : AppleScriptBuilder) : jsstring := join [LF] (script b).

(** *** Audit logging *)

Record AuditLogEntry := {
  timestamp : Z;
  operation : jsstring;
  user : option jsstring;
  details : list (jsstring * jsvalue);
  success : bool;
  error : option jsstring
}.

Record AuditLogger := { logs : list AuditLogEntry }.

(** [log(entry)]: [entry] comes without its timestamp, which is the time of
    the call.  The line written to the console is not modelled. *)
Definition log (l : AuditLogger) (now : Z) (operation : jsstring) (user : option jsstring)
    (details : list (jsstring * jsvalue)) (success : bool) (error : option jsstring)
    : AuditLogger :=
  {| logs := logs l ++
       [{| timestamp := now; operation := operation; user := user;
           details := details; success := success; error := error |}] |}.

(** *** Limit sanitizing *)

Definition sanitizeLimit (limit : number) (max : option number) : number :=
  let max := match max with Some m => m | None => of_Z 100 end in
  let parsed := Num.floor limit in
  if isNaN parsed || Num.ltb parsed (of_Z 1) then of_Z 10
  else Num.min parsed max.

(** *** Configuration read from the environment *)

Record SecurityConfig := {
  enableRateLimiting : bool;
  enableAuditLogging : bool;
  authToken : option jsstring;
  maxMessageLength : number;
  maxSearchResults : number
}.

(** [x || dflt] for an environment variable. *)
Definition env_or (x : option jsstring) (dflt : jsstring) : jsstring :=
  match x with
  | Some (c :: s) => c :: s
  | _ => dflt
  end.

(** [x !== 'false'] *)
Definition env_not_false (x : option jsstring) : bool :=
  match x with
  | Some s => negb (eqb_string s (js "false"))
  | None => true
  end.

Definition securityConfig (env : gmap (list N) (list N)) : SecurityConfig :=
  {| enableRateLimiting := env_not_false (env !! js "ENABLE_RATE_LIMITING");
     enableAuditLogging := env_not_false (env !! js "ENABLE_AUDIT_LOGGING");
     authToken := env !! js "MCP_AUTH_TOKEN";
     maxMessageLength := parseInt10 (env_or (env !! js "MAX_MESSAGE_LENGTH") (js "10000"));
     maxSearchResults := parseInt10 (env_or (env !! js "MAX_SEARCH_RESULTS") (js "100")) |}.

(** *** Authentication *)

(** [!securityConfig.authToken]: the token is absent or the empty string. *)
Definition no_auth_configured (cfg : SecurityConfig) : bool :=
  match authToken cfg with
  | None => true
  | Some [] => true
  | Some (_ :: _) => false
  end.

(** [token === securityConfig.authToken], both possibly [undefined]. *)
Definition strict_eq_token (a b : option jsstring) : bool :=
  match a, b with
  | None, None => true
  | Some x, Some y => eqb_string x y
  | _, _ => false
  end.

Definition checkAuthentication (cfg : SecurityConfig) (token : option jsstring) : bool :=
  if no_auth_configured cfg then true
  else strict_eq_token token (authToken cfg).

End Security.

(* ===================================================================== *)
(** ** utils/database.ts *)
(* ===================================================================== *)

Module Database.

(** A query parameter: [string | number].  A numeric parameter is taken to
    be an integer, printed in decimal by [String(param)]; this is what
    JavaScript does for the integers of magnitude up to 2^53, the only
    numbers for which the model is meant (larger ones are printed rounded
    or with an exponent, and fractions, [NaN] and the infinities have no
    value here). *)
Inductive param :=
  | PString (s : jsstring)
  | PNumber (z : Z).

(** The literal inserted for a parameter. *)
Definition escaped (p : param) : jsstring :=
  match p with
  | PString s => [SQUOTE] ++ replace_char_g SQUOTE [SQUOTE; SQUOTE] s ++ [SQUOTE]
  | PNumber z => string_of_Z z
  end.

(** The loop of [executeSqliteQuery]: one [replace('?', escaped)] per
    parameter, each on the text produced by the previous one. *)
Definition parameterizedQuery (query : jsstring) (parameters : list param) : jsstring :=
  fold_left (fun q p => replace_first QMARK (escaped p) q) parameters query.

(** How the spawned process ends: its [close] event or its [error] event. *)
Inductive spawn_outcome :=
  | Closed (code : Z) (stdout stderr : jsstring)
  | SpawnError (e : JsError).

Record SqliteResult := { stdout : jsstring; stderr : jsstring }.

Section Spawn.

(** [spawn(command, args)], followed to the end of the process. *)
Variable spawn : jsstring -> list jsstring -> spawn_outcome.

Definition executeSqliteQuery (dbPath query : jsstring) (parameters : list param)
    : result SqliteResult :=
  match spawn (js "sqlite3") [js "-json"; dbPath; parameterizedQuery query parameters] with
  | Closed code out err =>
      if negb (Z.eqb code 0)
      then Throw (Error (js "SQLite process exited with code " ++ string_of_Z code
                           ++ js ": " ++ err))
      else Ok {| stdout := out; stderr := err |}
  | SpawnError e => Throw e
  end.

End Spawn.

Definition buildSafeInClause (values : list jsstring) : jsstring * list jsstring :=
  match values with
  | [] => (js "(NULL)", [])
  | _ => (js "(" ++ join [COMMA] (List.map (fun _ => [QMARK]) values) ++ js ")", values)
  end.

Definition sanitizeLimit (limit : number) (max : option number) : number :=
  let max := match max with Some m => m | None => of_Z 100 end in
  let parsed := Num.floor limit in
  if isNaN parsed || Num.ltb parsed (of_Z 1) then of_Z 10
  else Num.min parsed max.

End Database.

(* ===================================================================== *)
(** ** The mail operations *)
(* ===================================================================== *)

Module Mail.

Import Security.

Record EmailMessage := {
  subject : jsvalue;
  sender : jsvalue;
  dateSent : jsvalue;
  content : jsvalue;
  isRead : jsvalue;
  mailbox : jsvalue
}.

(** The automation scripts, named after what they do; the interpolated
    values are kept, the fixed text is not.  [BuiltScript] is a script
    assembled by [AppleScriptBuilder]. *)
Inductive Script :=
  | CheckMailRunning
  | ActivateMail
  | CountMailboxes
  | MailVersion
  | EnsureMailRunning
  | UnreadScript (limit : number)
  | ListAccounts
  | UnreadInfo
  | SearchScript (searchString : jsstring) (safeLimit : number)
  | BuiltScript (text : jsstring).

(** The object-automation calls ([run] of [@jxa/run]) with their arguments. *)
Inductive JxaCall :=
  | JxaUnread (limit : number)
  | JxaSearch (searchTerm : jsstring) (limit : number)
  | JxaSend (to subject body : jsstring) (cc bcc : option jsstring).

Inductive ExternalCall :=
  | CallScript (s : Script)
  | CallJxa (c : JxaCall).

(** The state of the process: module-level limiters and audit log, the
    clock, and the external calls made so far (oldest first). *)
Record World := {
  limiters : RateLimiters;
  audit : AuditLogger;
  now : Z;
  calls : list ExternalCall
}.

Definition M (A : Type) : Type := World -> result A * World.

Definition ret {A} (a : A) : M A := fun w => (Ok a, w).

Definition throw {A} (e : JsError) : M A := fun w => (Throw e, w).

Definition bind {A B} (m : M A) (k : A -> M B) : M B :=
  fun w =>
    match m w with
    | (Ok a, w') => k a w'
    | (Throw e, w') => (Throw e, w')
    end.

(** [try { m } catch (e) { h e }] *)
Definition try_catch {A} (m : M A) (h : JsError -> M A) : M A :=
  fun w =>
    match m w with
    | (Ok a, w') => (Ok a, w')
    | (Throw e, w') => h e w'
    end.

Definition lift {A} (r : result A) : M A := fun w => (r, w).

Notation "x <- m ;; k" := (bind m (fun x => k))
  (at level 100, m at next level, right associativity).
Notation "m ;;; k" := (bind m (fun _ => k))
  (at level 100, right associativity).

Definition set_limiters (w : World) (l : RateLimiters) : World :=
  {| limiters := l; audit := audit w; now := now w; calls := calls w |}.

Definition set_audit (w : World) (a : AuditLogger) : World :=
  {| limiters := limiters w; audit := a; now := now w; calls := calls w |}.

Definition add_call (w : World) (c : ExternalCall) : World :=
  {| limiters := limiters w; audit := audit w; now := now w; calls := calls w ++ [c] |}.

(** [rateLimiters.search.check('global')] and its siblings. *)
Definition check_search : M bool := fun w =>
  let l := limiters w in
  let '(b, rl) := check (search l) (now w) (js "global") in
  (Ok b, set_limiters w {| messages := messages l; emails := emails l; search := rl;
                           write := write l; global := global l |}).

Definition check_emails : M bool := fun w =>
  let l := limiters w in
  let '(b, rl) := check (emails l) (now w) (js "global") in
  (Ok b, set_limiters w {| messages := messages l; emails := rl; search := search l;
                           write := write l; global := global l |}).

Definition check_global : M bool := fun w =>
  let l := limiters w in
  let '(b, rl) := check (global l) (now w) (js "global") in
  (Ok b, set_limiters w {| messages := messages l; emails := emails l; search := search l;
                           write := write l; global := rl |}).

(** [auditLogger.log({operation, details, success})] *)
Definition audit_log (operation : jsstring) (details : list (jsstring * jsvalue))
    (success : bool) : M unit := fun w =>
  (Ok tt, set_audit w (log (audit w) (now w) operation None details success None)).

Definition opt_value (o : option jsstring) : jsvalue :=
  match o with
  | Some s => JStr s
  | None => JUndefined
  end.

(** Truthiness of a [string | undefined]. *)
Definition truthy_opt (o : option jsstring) : bool :=
  match o with
  | Some (_ :: _) => true
  | _ => false
  end.

(** [msg.field] for a record read from JSON: the first binding of the key. *)
Fixpoint lookup_field (k : jsstring) (fields : list (jsstring * jsvalue)) : jsvalue :=
  match fields with
  | [] => JUndefined
  | (k', v) :: r => if eqb_string k' k then v else lookup_field k r
  end.

(** [msg.key]: throws on [null] and [undefined]; none of the keys read here
    exists on a string, a number, a boolean or an array. *)
Definition get_prop (msg : jsvalue) (k : jsstring) : result jsvalue :=
  match msg with
  | JNull | JUndefined => Throw (TypeError (js "Cannot read properties of null"))
  | JObj fields => Ok (lookup_field k fields)
  | _ => Ok JUndefined
  end.

Fixpoint map_result {A B} (f : A -> result B) (l : list A) : result (list B) :=
  match l with
  | [] => Ok []
  | x :: r =>
      match f x with
      | Throw e => Throw e
      | Ok y =>
          match map_result f r with
          | Throw e => Throw e
          | Ok ys => Ok (y :: ys)
          end
      end
  end.

Definition rbind {A B} (r : result A) (k : A -> result B) : result B :=
  match r with
  | Ok a => k a
  | Throw e => Throw e
  end.

Section Operations.

(** The outside world: the script interpreter, the object-automation
    bridge, [JSON.parse], the printing of dates and the e-mail test of the
    schema library.  An external call may answer differently each time, so
    it sees the calls made before it. *)
Variable runAppleScript_answer : list ExternalCall -> Script -> result jsstring.
Variable run_mails_answer : list ExternalCall -> JxaCall -> result (list EmailMessage).
Variable run_send_answer : list ExternalCall -> JxaCall -> result jsstring.
Variable JSON_parse : jsstring -> result jsvalue.
Variable Date_toString : Z -> jsstring.
Variable zod_email : jsstring -> bool.
Variable securityConfig : SecurityConfig.

Definition runAppleScript (s : Script) : M jsstring := fun w =>
  (runAppleScript_answer (calls w) s, add_call w (CallScript s)).

Definition run_mails (c : JxaCall) : M (list EmailMessage) := fun w =>
  (run_mails_answer (calls w) c, add_call w (CallJxa c)).

Definition run_send (c : JxaCall) : M jsstring := fun w =>
  (run_send_answer (calls w) c, add_call w (CallJxa c)).

Definition newDateString : M jsvalue := fun w => (Ok (JStr (Date_toString (now w))), w).

Definition checkMailAccess : M bool :=
  try_catch
    (isRunning <- runAppleScript CheckMailRunning ;;
     (if negb (eqb_string isRunning (js "true"))
      then try_catch (runAppleScript ActivateMail ;;; ret tt)
             (fun _ => throw (Error (js "Could not activate Mail app. Please start it manually.")))
      else ret tt) ;;;
     try_catch (runAppleScript CountMailboxes ;;; ret true)
       (fun _ =>
          try_catch (runAppleScript MailVersion ;;; ret true)
            (fun _ => throw (Error (js "Mail app is running but cannot access mailboxes. Please check permissions and configuration.")))))
    (fun error =>
       throw (Error (js "Cannot access Mail app. Please make sure Mail is running and properly configured. Error: "
                       ++ error_message error))).

(** *** getUnreadMails *)

(** One record of the JSON array, with the fallback of each field. *)
Definition unread_of_json (date : jsvalue) (msg : jsvalue) : result EmailMessage :=
  rbind (get_prop msg (js "subject")) (fun subject =>
  rbind (get_prop msg (js "sender")) (fun sender =>
  rbind (get_prop msg (js "date")) (fun d =>
  rbind (get_prop msg (js "content")) (fun content =>
  rbind (get_prop msg (js "mailbox")) (fun mailbox =>
  Ok {| subject := js_or subject (JStr (js "No subject"));
        sender := js_or sender (JStr (js "Unknown sender"));
        dateSent := js_or d date;
        content := js_or content (JStr (js "[Content not available]"));
        isRead := JBool false;
        mailbox := js_or mailbox (JStr (js "Unknown mailbox")) |}))))).

(** What the JSON branch does: it returns records, it throws (the parse
    or the mapping), or it falls through. *)
Inductive json_branch :=
  | JsonRecords (l : list EmailMessage)
  | JsonThrew
  | JsonFallsThrough.

Definition unread_json_branch (date : jsvalue) (asResult : jsstring) : json_branch :=
  if startsWith asResult [LBRACE] || startsWith asResult [LBRACKET] then
    match JSON_parse asResult with
    | Throw _ => JsonThrew
    | Ok (JArr (m :: ms)) =>
        match map_result (unread_of_json date) (m :: ms) with
        | Ok l => JsonRecords l
        | Throw _ => JsonThrew
        end
    | Ok _ => JsonFallsThrough
    end
  else JsonFallsThrough.

(** [emailData] after the loop over the pieces of one group. *)
Definition group_data (group : jsstring) : gmap (list N) (list N) :=
  let inner := removelast (List.tl group) in
  fold_left
    (fun (emailData : gmap (list N) (list N)) prop =>
       match split COLON prop with
       | k :: v1 :: vs => <[trim k := trim (join [COLON] (v1 :: vs))]> emailData
       | _ => emailData
       end)
    (split COMMA inner) ∅.

(** [emailData.key || fallback] *)
Definition data_or (emailData : gmap (list N) (list N)) (k : jsstring) (fallback : jsvalue)
    : jsvalue :=
  js_or (opt_value (emailData !! k)) fallback.

Definition group_accepted (emailData : gmap (list N) (list N)) : bool :=
  truthy (js_or (opt_value (emailData !! js "subject")) (opt_value (emailData !! js "sender"))).

(** [parsedEmails] after the loop over the brace-delimited groups. *)
Definition unread_record_branch (date : jsvalue) (asResult : jsstring) : list EmailMessage :=
  flat_map
    (fun group =>
       let emailData := group_data group in
       if group_accepted emailData then
         [{| subject := data_or emailData (js "subject") (JStr (js "No subject"));
             sender := data_or emailData (js "sender") (JStr (js "Unknown sender"));
             dateSent := data_or emailData (js "date") date;
             content := data_or emailData (js "content") (JStr (js "[Content not available]"));
             isRead := JBool false;
             mailbox := data_or emailData (js "mailbox") (JStr (js "Unknown mailbox")) |}]
       else [])
    (brace_groups asResult).

(** The inner [try] of the script branch: [Some l] when it returns [l]. *)
Definition unread_parse (date : jsvalue) (asResult : jsstring) : option (list EmailMessage) :=
  match unread_json_branch date asResult with
  | JsonRecords l => Some l
  | JsonThrew => None
  | JsonFallsThrough =>
      match unread_record_branch date asResult with
      | [] => None
      | parsedEmails => Some parsedEmails
      end
  end.

Definition debug_record (date : jsvalue) (asResult : jsstring) : EmailMessage :=
  {| subject := JStr (js "Raw AppleScript Output");
     sender := JStr (js "Mail System");
     dateSent := date;
     content := JStr (js "Could not parse Mail data properly. Raw output: " ++ asResult);
     isRead := JBool false;
     mailbox := JStr (js "Debug") |}.

(** The script branch after the script has answered: [Some l] when the
    function returns [l], [None] when control reaches the fallback. *)
Definition unread_from_script (date : jsvalue) (asResult : jsstring)
    : option (list EmailMessage) :=
  match
    (if match asResult with [] => false | _ => true end
        && Nat.ltb 0 (length (trim asResult))
     then unread_parse date asResult
     else None)
  with
  | Some l => Some l
  | None =>
      if includes asResult (js "subject") && includes asResult (js "sender")
      then Some [debug_record date asResult]
      else None
  end.

Definition getUnreadMails (limit : option number) : M (list EmailMessage) :=
  let limit := match limit with Some l => l | None => of_Z 10 end in
  try_catch
    (access <- checkMailAccess ;;
     if negb access then ret []
     else
       early <- try_catch
                  (asResult <- runAppleScript (UnreadScript limit) ;;
                   date <- newDateString ;;
                   ret (unread_from_script date asResult))
                  (fun _ => ret None) ;;
       match early with
       | Some l => ret l
       | None =>
           runAppleScript ListAccounts ;;;
           runAppleScript UnreadInfo ;;;
           run_mails (JxaUnread limit)
       end)
    (fun error => throw (Error (js "Error accessing mail: " ++ error_message error))).

(** *** searchMails *)

Definition search_of_json (date : jsvalue) (msg : jsvalue) : result EmailMessage :=
  rbind (get_prop msg (js "subject")) (fun subject =>
  rbind (get_prop msg (js "sender")) (fun sender =>
  rbind (get_prop msg (js "date")) (fun d =>
  rbind (get_prop msg (js "isRead")) (fun isRead =>
  rbind (get_prop msg (js "boxName")) (fun boxName =>
  Ok {| subject := js_or subject (JStr (js "No subject"));
        sender := js_or sender (JStr (js "Unknown sender"));
        dateSent := js_or d date;
        content := JStr (js "[Content not available through AppleScript method]");
        isRead := js_or isRead (JBool false);
        mailbox := js_or boxName (JStr (js "Unknown mailbox")) |}))))).

Definition search_from_script (date : jsvalue) (asResult : jsstring)
    : option (list EmailMessage) :=
  match asResult with
  | [] => None
  | _ =>
      match JSON_parse asResult with
      | Ok (JArr (m :: ms)) =>
          match map_result (search_of_json date) (m :: ms) with
          | Ok l => Some l
          | Throw _ => None
          end
      | _ => None
      end
  end.

Definition rate_limit_exceeded : JsError :=
  Error (js "Rate limit exceeded. Please try again later.").

Definition searchMails (searchTerm : jsstring) (limit : option number)
    : M (list EmailMessage) :=
  let limit := match limit with Some l => l | None => of_Z 10 end in
  try_catch
    (validatedSearchTerm <- lift (validateSearchQuery searchTerm) ;;
     let safeLimit := sanitizeLimit limit (Some (maxSearchResults securityConfig)) in
     (if enableRateLimiting securityConfig then
        okSearch <- check_search ;;
        if negb okSearch then throw rate_limit_exceeded
        else
          okGlobal <- check_global ;;
          if negb okGlobal then throw rate_limit_exceeded else ret tt
      else ret tt) ;;;
     access <- checkMailAccess ;;
     if negb access then ret []
     else
       runAppleScript EnsureMailRunning ;;;
       early <- try_catch
                  (asResult <- runAppleScript
                                 (SearchScript (escapeAppleScriptString validatedSearchTerm)
                                    safeLimit) ;;
                   date <- newDateString ;;
                   ret (search_from_script date asResult))
                  (fun _ => ret None) ;;
       match early with
       | Some l => ret l
       | None => run_mails (JxaSearch validatedSearchTerm safeLimit)
       end)
    (fun error => throw (Error (js "Error searching mail: " ++ error_message error))).

(** *** sendMail *)

Definition validate_optional_email (x : option jsstring) : M (option jsstring) :=
  if truthy_opt x
  then match x with
       | Some a => v <- lift (validateEmail zod_email a) ;; ret (Some v)
       | None => ret None
       end
  else ret None.

Definition send_script (escapedTo escapedSubject escapedBody escapedCc escapedBcc : jsstring)
    (validatedCc validatedBcc : option jsstring) : jsstring :=
  let b0 :=
    raw (js "make new to recipient with properties {address:" ++ [DQUOTE] ++ escapedTo
           ++ [DQUOTE] ++ js "}")
      (raw (js "tell newMessage")
         (raw (js "set newMessage to make new outgoing message with properties {subject:"
                 ++ [DQUOTE] ++ escapedSubject ++ [DQUOTE] ++ js ", content:" ++ [DQUOTE]
                 ++ escapedBody ++ [DQUOTE] ++ js ", visible:true}")
            (tell (js "Mail") newAppleScriptBuilder))) in
  let b1 :=
    if truthy_opt validatedCc
    then raw (js "make new cc recipient with properties {address:" ++ [DQUOTE] ++ escapedCc
                ++ [DQUOTE] ++ js "}") b0
    else b0 in
  let b2 :=
    if truthy_opt validatedBcc
    then raw (js "make new bcc recipient with properties {address:" ++ [DQUOTE] ++ escapedBcc
                ++ [DQUOTE] ++ js "}") b1
    else b1 in
  build (endTell (raw (js "return " ++ [DQUOTE] ++ js "success" ++ [DQUOTE])
                    (raw (js "send newMessage") (raw (js "end tell") b2)))).

Definition sent_message (to subject : jsstring) : jsstring :=
  js "Email sent to " ++ to ++ js " with subject " ++ [DQUOTE] ++ subject ++ [DQUOTE].

Definition sendMail (to subject body : jsstring) (cc bcc : option jsstring)
    : M (option jsstring) :=
  try_catch
    (validatedTo <- lift (validateEmail zod_email to) ;;
     validatedSubject <- lift (validateMessageContent subject) ;;
     validatedBody <- lift (validateMessageContent body) ;;
     validatedCc <- validate_optional_email cc ;;
     validatedBcc <- validate_optional_email bcc ;;
     (if enableRateLimiting securityConfig then
        okEmails <- check_emails ;;
        if negb okEmails then throw rate_limit_exceeded
        else
          okGlobal <- check_global ;;
          if negb okGlobal then throw rate_limit_exceeded else ret tt
      else ret tt) ;;;
     access <- checkMailAccess ;;
     if negb access then throw (Error (js "Could not access Mail app"))
     else
       runAppleScript EnsureMailRunning ;;;
       let escapedTo := escapeAppleScriptString validatedTo in
       let escapedSubject := escapeAppleScriptString validatedSubject in
       let escapedBody := escapeAppleScriptString validatedBody in
       let escapedCc :=
         if truthy_opt validatedCc
         then escapeAppleScriptString (default [] validatedCc) else [] in
       let escapedBcc :=
         if truthy_opt validatedBcc
         then escapeAppleScriptString (default [] validatedBcc) else [] in
       let script := send_script escapedTo escapedSubject escapedBody escapedCc escapedBcc
                       validatedCc validatedBcc in
       try_catch
         (result <- runAppleScript (BuiltScript script) ;;
          if eqb_string result (js "success") then
            (if enableAuditLogging securityConfig then
               audit_log (js "sendMail")
                 [(js "to", JStr validatedTo);
                  (js "subject", JStr (substring0 50 validatedSubject));
                  (js "cc", opt_value validatedCc);
                  (js "bcc", opt_value validatedBcc)]
                 true
             else ret tt) ;;;
            ret (Some (sent_message validatedTo validatedSubject))
          else ret None)
         (fun asError =>
            jxaResult <- run_send (JxaSend to subject body cc bcc) ;;
            if startsWith jxaResult (js "JXA error:")
            then throw (Error jxaResult)
            else ret (Some (sent_message to subject))))
    (fun error => throw (Error (js "Error sending mail: " ++ error_message error))).

(** The five validations at the head of [sendMail], in the order of the
    source; the answer is the first rejection, if there is one. *)
Definition validate_optional (x : option jsstring) : result (option jsstring) :=
  if truthy_opt x
  then match x with
       | Some a => rbind (validateEmail zod_email a) (fun v => Ok (Some v))
       | None => Ok None
       end
  else Ok None.

Definition sendMail_validation (to subject body : jsstring) (cc bcc : option jsstring)
    : result unit :=
  rbind (validateEmail zod_email to) (fun _ =>
  rbind (validateMessageContent subject) (fun _ =>
  rbind (validateMessageContent body) (fun _ =>
  rbind (validate_optional cc) (fun _ =>
  rbind (validate_optional bcc) (fun _ => Ok tt))))).

End Operations.

End Mail.

(* ===================================================================== *)
(** ** Reference definitions, written from the specification *)
(* ===================================================================== *)

Module Spec.

Import Security Database.

(** The inverse of one escape: the character a backslash sequence stands
    for. *)
Definition unescape_char (c : N) : option N :=
  if N.eqb c BACKSLASH then Some BACKSLASH
  else if N.eqb c DQUOTE then Some DQUOTE
  else if N.eqb c 110 then Some LF
  else if N.eqb c 114 then Some CR
  else if N.eqb c 116 then Some TAB
  else None.

(** Unescaping: reading left to right, each of the five two-character
    sequences is mapped back to its character; anything else is kept. *)
Fixpoint unescape (s : jsstring) : jsstring :=
  match s with
  | [] => []
  | x :: t =>
      if N.eqb x BACKSLASH then
        match t with
        | [] => [x]
        | c :: rest =>
            match unescape_char c with
            | Some l => l :: unescape rest
            | None => x :: unescape t
            end
        end
      else x :: unescape t
  end.

(** Positional substitution: the i-th placeholder of the template receives
    the literal of the i-th parameter. *)
Fixpoint substitute_positional (template : jsstring) (parameters : list param) : jsstring :=
  match template with
  | [] => []
  | c :: t =>
      if N.eqb c QMARK then
        match parameters with
        | p :: ps => escaped p ++ substitute_positional t ps
        | [] => c :: substitute_positional t []
        end
      else c :: substitute_positional t parameters
  end.

(** The search-query validator as the specification words it: trim, then
    the maximum length on the trimmed text, then the pattern scan. *)
Definition validateSearchQuery_trim_first (query : jsstring) : result jsstring :=
  let trimmed := trim query in
  if Nat.ltb 500 (length trimmed)
  then Throw (ValidationError (js "Invalid search query") (Some (js "searchQuery")))
  else if containsDangerousPattern trimmed
  then Throw (ValidationError (js "Search query contains forbidden patterns")
                (Some (js "searchQuery")))
  else Ok trimmed.

(** The field names looked for in an output that could not be parsed. *)
Definition expected_tokens : list jsstring := [js "subject"; js "sender"].

(** Successive calls of [check] on one key, at the given times. *)
Fixpoint check_all (rl : RateLimiter) (key : jsstring) (times : list Z)
    : list bool * RateLimiter :=
  match times with
  | [] => ([], rl)
  | t :: ts =>
      let '(b, rl1) := check rl t key in
      let '(bs, rl2) := check_all rl1 key ts in
      (b :: bs, rl2)
  end.

End Spec.

(* ===================================================================== *)
(** ** The rest of utils/security.ts *)
(* ===================================================================== *)

Module SecurityRest.

Import Security.

Definition escapeSqlIdentifier (str : jsstring) : jsstring :=
  List.filter is_identifier_char str.

(** The argument between single quotes, each single quote of it replaced by
    the four characters quote, backslash, quote, quote. *)
Definition escapeShellArg (arg : jsstring) : jsstring :=
  [SQUOTE] ++ replace_char_g SQUOTE [SQUOTE; BACKSLASH; SQUOTE; SQUOTE] arg ++ [SQUOTE].

(** *** The schemas that use a pattern or a refinement *)

Inductive zcheck_more :=
  | ZBasic (c : zcheck)
  | ZRegex (matches : jsstring -> bool) (message : jsstring)
  | ZRefine (holds : jsstring -> bool) (message : jsstring).

Record zschema_more := {
  zchecks_more : list zcheck_more;
  ztransform_more : option (jsstring -> jsstring)
}.

Definition zissue_more (c : zcheck_more) (input : jsstring) : list jsstring :=
  match c with
  | ZBasic c => zissue c input
  | ZRegex matches m => if matches input then [] else [m]
  | ZRefine holds m => if holds input then [] else [m]
  end.

Definition zparse_more (schema : zschema_more) (input : jsstring) : result jsstring :=
  match flat_map (fun c => zissue_more c input) (zchecks_more schema) with
  | [] =>
      Ok (match ztransform_more schema with
          | Some f => f input
          | None => input
          end)
  | issues => Throw (ZodError issues)
  end.

Definition PLUS : N := 43.

(** A character of the class [[0-9\s\-().]]. *)
Definition is_phone_char (c : N) : bool :=
  is_digit c || is_whitespace c || N.eqb c 45 || N.eqb c 40 || N.eqb c 41 || N.eqb c 46.

(** The pattern of [phoneNumberSchema]: from the start of the input an
    optional plus sign, then one or more characters of the class, up to the
    end of the input. *)
Definition phone_pattern (s : jsstring) : bool :=
  let body := match s with
              | c :: t => if N.eqb c PLUS then t else s
              | [] => s
              end in
  match body with
  | [] => false
  | _ => forallb is_phone_char body
  end.

(** [val.replace(/[^0-9+]/g, '')] *)
Definition keep_digits_and_plus (val : jsstring) : jsstring :=
  List.filter (fun c => is_digit c || N.eqb c PLUS) val.

Definition phoneNumberSchema : zschema_more :=
  {| zchecks_more :=
       [ZBasic (ZMin 10 (js "Phone number must be at least 10 digits"));
        ZBasic (ZMax 20 (js "Phone number too long"));
        ZRegex phone_pattern (js "Invalid phone number format")];
     ztransform_more := Some keep_digits_and_plus |}.

Definition noteContentSchema : zschema_more :=
  {| zchecks_more := [ZBasic (ZMax 50000 (js "Note content too long"))];
     ztransform_more := None |}.

(** A character that the pattern of [folderNameSchema] excludes: slash,
    backslash, colon, star, question mark, double quote, angle brackets,
    bar. *)
Definition is_folder_forbidden (c : N) : bool :=
  N.eqb c 47 || N.eqb c BACKSLASH || N.eqb c COLON || N.eqb c 42 || N.eqb c QMARK
  || N.eqb c DQUOTE || N.eqb c 60 || N.eqb c 62 || N.eqb c 124.

Definition folder_pattern (s : jsstring) : bool :=
  match s with
  | [] => false
  | _ => forallb (fun c => negb (is_folder_forbidden c)) s
  end.

Definition folderNameSchema : zschema_more :=
  {| zchecks_more :=
       [ZBasic (ZMax 255 (js "Folder name too long"));
        ZRegex folder_pattern (js "Invalid folder name")];
     ztransform_more := None |}.

Definition filePathSchema : zschema_more :=
  {| zchecks_more :=
       [ZBasic (ZMax 1024 (js "File path too long"));
        ZRefine (fun path => negb (includes path (js ".."))) (js "Path traversal detected")];
     ztransform_more := None |}.

Definition validatePhoneNumber (phone : jsstring) : result jsstring :=
  match zparse_more phoneNumberSchema phone with
  | Ok v => Ok v
  | Throw _ => Throw (ValidationError (js "Invalid phone number") (Some (js "phoneNumber")))
  end.

(** *** AuditLogger.getRecentLogs *)

(** [l.slice(start)] for an integer [start]: a negative start counts from
    the end. *)
Definition slice_from {A} (start : Z) (l : list A) : list A :=
  let len := Z.of_nat (length l) in
  let k := if (start <? 0)%Z then Z.max (len + start) 0 else Z.min start len in
  skipn (Z.to_nat k) l.

(** [getRecentLogs(count = 100)], for an integer count. *)
Definition getRecentLogs (l : AuditLogger) (count : option Z) : list AuditLogEntry :=
  let count := match count with Some c => c | None => 100%Z end in
  slice_from (- count) (logs l).

End SecurityRest.

(* ===================================================================== *)
(** ** The remaining mail operations that run a script *)
(* ===================================================================== *)

Module MailRest.

Import Security Mail.

(** [s.split(sep)] for a separator of one character or more.  [skip] counts
    the characters of a separator just found that are still to be passed,
    [cur] holds, reversed, the piece being read. *)
Fixpoint split_from (sep : jsstring) (skip : nat) (cur : jsstring) (s : jsstring)
    : list jsstring :=
  match s with
  | [] => [rev cur]
  | c :: t =>
      match skip with
      | S k => split_from sep k cur t
      | O =>
          if startsWith s sep
          then rev cur :: split_from sep (length sep - 1) [] t
          else split_from sep 0 (c :: cur) t
      end
  end.

Definition split_string (sep : jsstring) (s : jsstring) : list jsstring :=
  split_from sep 0 [] s.

(** The replacement applied to an account name: a backslash is put before
    each double quote, and nothing else is changed. *)
Definition escape_quotes (name : jsstring) : jsstring :=
  replace_char_g DQUOTE [BACKSLASH; DQUOTE] name.

(** [text ? text.split(", ") : []] *)
Definition split_names (text : jsstring) : list jsstring :=
  match text with
  | [] => []
  | _ => split_string (js ", ") text
  end.

Definition accounts_script : jsstring :=
  join [LF]
    [ [];
      js "tell application " ++ [DQUOTE] ++ js "Mail" ++ [DQUOTE];
      js "    set acctNames to {}";
      js "    repeat with a in accounts";
      js "        set end of acctNames to name of a";
      js "    end repeat";
      js "    return acctNames";
      js "end tell" ].

Definition mailboxes_script (accountName : jsstring) : jsstring :=
  join [LF]
    [ [];
      js "tell application " ++ [DQUOTE] ++ js "Mail" ++ [DQUOTE];
      js "    set boxNames to {}";
      js "    try";
      js "        set targetAccount to first account whose name is " ++ [DQUOTE] ++ escape_quotes accountName ++ [DQUOTE];
      js "        set acctMailboxes to every mailbox of targetAccount";
      js "        repeat with mb in acctMailboxes";
      js "            set end of boxNames to name of mb";
      js "        end repeat";
      js "    on error errMsg";
      js "        return " ++ [DQUOTE] ++ js "Error: " ++ [DQUOTE] ++ js " & errMsg";
      js "    end try";
      js "    return boxNames";
      js "end tell" ].

Section Operations.

Variable runAppleScript_answer : list ExternalCall -> Script -> result jsstring.
Variable Date_toString : Z -> jsstring.

(** The text of a number placed in a template. *)
Variable Number_toString : number -> jsstring.

Definition latest_script (account : jsstring) (limit : number) : jsstring :=
  join [LF]
    [ [];
      js "tell application " ++ [DQUOTE] ++ js "Mail" ++ [DQUOTE];
      js "    set resultList to {}";
      js "    try";
      js "        set targetAccount to first account whose name is " ++ [DQUOTE] ++ escape_quotes account ++ [DQUOTE];
      js "        set acctMailboxes to every mailbox of targetAccount";
      [];
      js "        repeat with mb in acctMailboxes";
      js "            try";
      js "                set messagesList to (messages of mb)";
      js "                set sortedMessages to my sortMessagesByDate(messagesList)";
      js "                set msgLimit to " ++ Number_toString limit;
      js "                if (count of sortedMessages) < msgLimit then";
      js "                    set msgLimit to (count of sortedMessages)";
      js "                end if";
      [];
      js "                repeat with i from 1 to msgLimit";
      js "                    try";
      js "                        set currentMsg to item i of sortedMessages";
      js "                        set msgData to {subject:(subject of currentMsg), sender:(sender of currentMsg), " ++ [172%N];
      js "                                    date:(date sent of currentMsg) as string, mailbox:(name of mb)}";
      [];
      js "                        try";
      js "                            set msgContent to content of currentMsg";
      js "                            if length of msgContent > 500 then";
      js "                                set msgContent to (text 1 thru 500 of msgContent) & " ++ [DQUOTE] ++ js "..." ++ [DQUOTE];
      js "                            end if";
      js "                            set msgData to msgData & {content:msgContent}";
      js "                        on error";
      js "                            set msgData to msgData & {content:" ++ [DQUOTE] ++ js "[Content not available]" ++ [DQUOTE] ++ js "}";
      js "                        end try";
      [];
      js "                        set end of resultList to msgData";
      js "                    on error";
      js "                        -- Skip problematic messages";
      js "                    end try";
      js "                end repeat";
      [];
      js "                if (count of resultList) " ++ [8805%N] ++ js " " ++ Number_toString limit ++ js " then exit repeat";
      js "            on error";
      js "                -- Skip problematic mailboxes";
      js "            end try";
      js "        end repeat";
      js "    on error errMsg";
      js "        return " ++ [DQUOTE] ++ js "Error: " ++ [DQUOTE] ++ js " & errMsg";
      js "    end try";
      [];
      js "    return resultList";
      js "end tell";
      [];
      js "on sortMessagesByDate(messagesList)";
      js "    set sortedMessages to sort messagesList by date sent";
      js "    return sortedMessages";
      js "end sortMessagesByDate" ].

Definition getAccounts : M (list jsstring) :=
  try_catch
    (access <- checkMailAccess runAppleScript_answer ;;
     if negb access then ret []
     else
       accounts <- runAppleScript runAppleScript_answer (BuiltScript accounts_script) ;;
       ret (split_names accounts))
    (fun error => throw (Error (js "Error getting mail accounts: " ++ error_message error))).

Definition getMailboxesForAccount (accountName : jsstring) : M (list jsstring) :=
  try_catch
    (access <- checkMailAccess runAppleScript_answer ;;
     if negb access then ret []
     else
       mailboxes <- runAppleScript runAppleScript_answer
                      (BuiltScript (mailboxes_script accountName)) ;;
       if startsWith mailboxes (js "Error:") then ret []
       else ret (split_names mailboxes))
    (fun error =>
       throw (Error (js "Error getting mailboxes for account " ++ accountName ++ js ": "
                       ++ error_message error))).

(** The text of [email.mailbox || "Unknown"]. *)
Definition mailbox_or_unknown (emailData : gmap (list N) (list N)) : jsstring :=
  match emailData !! js "mailbox" with
  | Some (c :: m) => c :: m
  | _ => js "Unknown"
  end.

Definition latest_records (account : jsstring) (date : jsvalue) (asResult : jsstring)
    : list EmailMessage :=
  flat_map
    (fun group =>
       let email := group_data group in
       if group_accepted email then
         [{| subject := data_or email (js "subject") (JStr (js "No subject"));
             sender := data_or email (js "sender") (JStr (js "Unknown sender"));
             dateSent := data_or email (js "date") date;
             content := data_or email (js "content") (JStr (js "[Content not available]"));
             isRead := JBool false;
             mailbox := JStr (account ++ js " - " ++ mailbox_or_unknown email) |}]
       else [])
    (brace_groups asResult).

Definition getLatestMails (account : jsstring) (limit : option number)
    : M (list EmailMessage) :=
  let limit := match limit with Some l => l | None => of_Z 5 end in
  try_catch
    (access <- checkMailAccess runAppleScript_answer ;;
     if negb access then ret []
     else
       asResult <- runAppleScript runAppleScript_answer
                     (BuiltScript (latest_script account limit)) ;;
       if startsWith asResult (js "Error:") then throw (Error asResult)
       else
         date <- newDateString Date_toString ;;
         ret (latest_records account date asResult))
    (fun _ => ret []).

End Operations.

End MailRest.

(* ===================================================================== *)
(** ** Readers of the escaped texts *)
(* ===================================================================== *)

(** How the consumers of the escaped texts read them back: the script
    interpreter a string literal, the query engine a quoted string, the
    shell a word. *)
Module Readers.

Import Spec.

Definition prepend (c : N) (r : option (jsstring * jsstring)) : option (jsstring * jsstring) :=
  match r with
  | Some (body, rest) => Some (c :: body, rest)
  | None => None
  end.

(** The text of a script literal, read from just after its opening quote: a
    backslash takes the next character with it, the first quote that is not
    taken this way closes the literal.  The answer is the text between the
    quotes and what follows the closing quote. *)
Fixpoint literal_body (s : jsstring) : option (jsstring * jsstring) :=
  match s with
  | [] => None
  | c :: t =>
      if N.eqb c DQUOTE then Some ([], t)
      else if N.eqb c BACKSLASH then
        match t with
        | [] => None
        | c2 :: t2 => prepend c (prepend c2 (literal_body t2))
        end
      else prepend c (literal_body t)
  end.

(** The value of a script literal: its text with the escapes undone. *)
Definition read_literal (s : jsstring) : option (jsstring * jsstring) :=
  match literal_body s with
  | Some (body, rest) => Some (unescape body, rest)
  | None => None
  end.

(** The value of a quoted SQL string, read from just after its opening
    quote: two quotes in a row stand for one, a single quote closes. *)
Fixpoint read_sql_string (s : jsstring) : option (jsstring * jsstring) :=
  match s with
  | [] => None
  | c :: t =>
      if N.eqb c SQUOTE then
        match t with
        | c2 :: t2 => if N.eqb c2 SQUOTE then prepend SQUOTE (read_sql_string t2)
                      else Some ([], t)
        | [] => Some ([], [])
        end
      else prepend c (read_sql_string t)
  end.

(** The value of a shell word in which every character is protected: inside
    single quotes every character stands for itself up to the next quote;
    outside them only a quote or a backslash followed by a character may
    appear. *)
Fixpoint shell_word (quoted : bool) (s : jsstring) : option jsstring :=
  match s with
  | [] => if quoted then None else Some []
  | c :: t =>
      if quoted then
        if N.eqb c SQUOTE then shell_word false t
        else option_map (cons c) (shell_word true t)
      else if N.eqb c SQUOTE then shell_word true t
      else if N.eqb c BACKSLASH then
        match t with
        | c2 :: t2 => option_map (cons c2) (shell_word false t2)
        | [] => None
        end
      else None
  end.

End Readers.

(* ===================================================================== *)
(** ** Definitions used to state the properties *)
(* ===================================================================== *)

Import Security Spec Database Mail.

(** *** Escaping and substitution *)

(** What the five passes do to one character. *)
Definition escape_char (x : N) : jsstring :=
  if N.eqb x BACKSLASH then [BACKSLASH; BACKSLASH]
  else if N.eqb x DQUOTE then [BACKSLASH; DQUOTE]
  else if N.eqb x LF then [BACKSLASH; 110%N]
  else if N.eqb x CR then [BACKSLASH; 114%N]
  else if N.eqb x TAB then [BACKSLASH; 116%N]
  else [x].

(** A character that is neither the placeholder nor [$]. *)
Definition plain_char (c : N) : bool := negb (N.eqb c QMARK) && negb (N.eqb c DOLLAR).

Definition no_placeholder (s : jsstring) : bool := forallb (fun c => negb (N.eqb c QMARK)) s.

(** A parameter whose text holds neither a question mark nor a dollar. *)
Definition plain_param (p : param) : bool :=
  match p with
  | PString s => forallb plain_char s
  | PNumber _ => true
  end.

(** *** Audit log of a computation *)

(** A computation that leaves the audit log as it found it. *)
Definition keeps_audit {A} (m : M A) : Prop :=
  forall w, audit (snd (m w)) = audit w.

(** A computation that, when it throws, leaves the audit log as it found it. *)
Definition quiet_on_throw {A} (m : M A) : Prop :=
  forall w e, fst (m w) = Throw e -> audit (snd (m w)) = audit w.

Definition never_throws {A} (m : M A) : Prop :=
  forall w, exists a, fst (m w) = Ok a.

(** *** Concrete configurations and outside worlds *)


(** The process at start-up. *)
Definition initial_world : World :=
  {| limiters := rateLimiters; audit := {| logs := [] |}; now := 0; calls := [] |}.

Definition default_config : SecurityConfig := securityConfig ∅.

(** Mail answers every script, and the unread-mail script with [raw]. *)
Definition scripts_answering (raw : jsstring) (_ : list ExternalCall) (s : Script)
    : result jsstring :=
  match s with
  | UnreadScript _ => Ok raw
  | _ => Ok (js "true")
  end.

(** Mail is reachable, but the script that sends the message fails. *)
Definition send_script_fails (_ : list ExternalCall) (s : Script) : result jsstring :=
  match s with
  | BuiltScript _ => Throw (Error (js "execution error"))
  | _ => Ok (js "true")
  end.

(** Mail is reachable and the script that sends the message succeeds. *)
Definition send_script_succeeds (_ : list ExternalCall) (s : Script) : result jsstring :=
  match s with
  | BuiltScript _ => Ok (js "success")
  | _ => Ok (js "true")
  end.

Definition no_mails (_ : list ExternalCall) (_ : JxaCall) : result (list EmailMessage) :=
  Ok [].

Definition jxa_send_fails (_ : list ExternalCall) (_ : JxaCall) : result jsstring :=
  Ok (js "JXA error: Error: boom").

Definition jxa_send_works (_ : list ExternalCall) (_ : JxaCall) : result jsstring :=
  Ok (js "JXA send completed").

Definition json_rejects (_ : jsstring) : result jsvalue :=
  Throw (Error (js "Unexpected token")).

Definition date_zero (_ : Z) : jsstring := js "Thu Jan 01 1970".

Definition any_email (_ : jsstring) : bool := true.

Definition no_email (_ : jsstring) : bool := false.

(** *** Further definitions for the statements *)

Import SecurityRest MailRest Readers.

Definition no_backslash (s : jsstring) : bool :=
  forallb (fun c => negb (N.eqb c BACKSLASH)) s.

Definition no_line_feed (s : jsstring) : bool :=
  forallb (fun c => negb (N.eqb c LF)) s.




(** Successive calls of [check], each with its time and its key; the
    answers are dropped. *)
Fixpoint run_checks (rl : RateLimiter) (calls : list (Z * jsstring)) : RateLimiter :=
  match calls with
  | [] => rl
  | (t, k) :: cs => run_checks (snd (check rl t k)) cs
  end.

(** What holds of a limiter created with limit [m] and window [w] after the
    calls [seen]: its settings are unchanged, and every entry counts between
    1 and the limit (1 when the limit is lower) calls and ends its window
    [w] after one of the calls made on its key. *)
Definition limiter_invariant (m w : Z) (seen : list (Z * jsstring)) (rl : RateLimiter) : Prop :=
  maxRequests rl = m /\ windowMs rl = w
  /\ forall k e, limits rl !! k = Some e ->
       (1 <= count e <= Z.max 1 m)%Z
       /\ exists t, In (t, k) seen /\ resetAt e = (t + w)%Z.

(** A computation that leaves a part of the state as it found it. *)
Definition preserves {X A} (part : World -> X) (m : M A) : Prop :=
  forall w, part (snd (m w)) = part w.

(** A computation that writes at most one audit entry, which then
    satisfies [P]. *)
Definition logs_at_most_one {A} (P : AuditLogEntry -> Prop) (m : M A) : Prop :=
  forall w,
    logs (audit (snd (m w))) = logs (audit w)
    \/ exists entry, P entry /\ logs (audit (snd (m w))) = logs (audit w) ++ [entry].

(** What can be said of an entry written by [sendMail] for a message with
    the given subject. *)
Definition sendMail_entry (subject : jsstring) (entry : AuditLogEntry) : Prop :=
  operation entry = js "sendMail" /\ success entry = true /\ error entry = None
  /\ exists preview,
       In (js "subject", JStr preview) (details entry)
       /\ length preview <= 50 /\ preview = firstn 50 subject.

(** Every script fails. *)
Definition scripts_fail (_ : list ExternalCall) (_ : Script) : result jsstring :=
  Throw (Error (js "not authorised")).

Definition number_text (_ : number) : jsstring := js "5".

Definition no_comma (s : jsstring) : bool :=
  forallb (fun c => negb (N.eqb c COMMA)) s.

(** The limiters and the audit log, the part of the state that the
    operations without validation are not to touch. *)
Definition guards (w : World) : RateLimiters * AuditLogger := (limiters w, audit w).

(** A limiter that has used up its window, which ends at time 60000. *)
Definition used_up (rl : RateLimiter) : RateLimiter :=
  set_limits rl {[ js "global" := {| count := maxRequests rl; resetAt := 60000 |} ]}.

(** The process at time 0 with the search limiter used up. *)
Definition search_used_up : World :=
  set_limiters initial_world
    {| messages := messages rateLimiters; emails := emails rateLimiters;
       search := used_up (search rateLimiters); write := write rateLimiters;
       global := global rateLimiters |}.

(** The process at time 0 with the global limiter used up. *)
Definition global_used_up : World :=
  set_limiters initial_world
    {| messages := messages rateLimiters; emails := emails rateLimiters;
       search := search rateLimiters; write := write rateLimiters;
       global := used_up (global rateLimiters) |}.

(** Mail is reachable and every script given by its text answers [out]. *)
Definition built_scripts_answering (out : jsstring) (_ : list ExternalCall) (s : Script)
    : result jsstring :=
  match s with
  | BuiltScript _ => Ok out
  | _ => Ok (js "true")
  end.

(** A numeric parameter in the range where [String(param)] is the decimal
    text of the integer: magnitude at most 2^53. *)
Definition safe_integer_param (p : param) : bool :=
  match p with
  | PString _ => true
  | PNumber z => (Z.abs z <=? 2 ^ 53)%Z
  end.

(** The lines of the script of [getMailboxesForAccount] before the line that
    names the account, the start of that line, and the lines after it. *)
Definition mailboxes_lines_before : list jsstring :=
  [ [];
    js "tell application " ++ [DQUOTE] ++ js "Mail" ++ [DQUOTE];
    js "    set boxNames to {}";
    js "    try" ].

Definition mailboxes_name_line_start : jsstring :=
  js "        set targetAccount to first account whose name is ".

Definition mailboxes_lines_after : list jsstring :=
  [ js "        set acctMailboxes to every mailbox of targetAccount";
    js "        repeat with mb in acctMailboxes";
    js "            set end of boxNames to name of mb";
    js "        end repeat";
    js "    on error errMsg";
    js "        return " ++ [DQUOTE] ++ js "Error: " ++ [DQUOTE] ++ js " & errMsg";
    js "    end try";
    js "    return boxNames";
    js "end tell" ].

(** The text of the script up to the opening quote of the account name, and
    the text after the closing quote. *)
Definition mailboxes_script_head : jsstring :=
  join [LF] (mailboxes_lines_before ++ [mailboxes_name_line_start]).

Definition mailboxes_script_tail : jsstring :=
  LF :: join [LF] (mailboxes_lines_after).

(** The lines of the script of [getLatestMails] before the line that
    names the account, the start of that line, and the lines after it. *)
Definition latest_lines_before : list jsstring :=
  [ [];
    js "tell application " ++ [DQUOTE] ++ js "Mail" ++ [DQUOTE];
    js "    set resultList to {}";
    js "    try" ].

Definition latest_name_line_start : jsstring :=
  js "        set targetAccount to first account whose name is ".

Definition latest_lines_after (Number_toString : number -> jsstring) (limit : number) : list jsstring :=
  [ js "        set acctMailboxes to every mailbox of targetAccount";
    [];
    js "        repeat with mb in acctMailboxes";
    js "            try";
    js "                set messagesList to (messages of mb)";
    js "                set sortedMessages to my sortMessagesByDate(messagesList)";
    js "                set msgLimit to " ++ Number_toString limit;
    js "                if (count of sortedMessages) < msgLimit then";
    js "                    set msgLimit to (count of sortedMessages)";
    js "                end if";
    [];
    js "                repeat with i from 1 to msgLimit";
    js "                    try";
    js "                        set currentMsg to item i of sortedMessages";
    js "                        set msgData to {subject:(subject of currentMsg), sender:(sender of currentMsg), " ++ [172%N];
    js "                                    date:(date sent of currentMsg) as string, mailbox:(name of mb)}";
    [];
    js "                        try";
    js "                            set msgContent to content of currentMsg";
    js "                            if length of msgContent > 500 then";
    js "                                set msgContent to (text 1 thru 500 of msgContent) & " ++ [DQUOTE] ++ js "..." ++ [DQUOTE];
    js "                            end if";
    js "                            set msgData to msgData & {content:msgContent}";
    js "                        on error";
    js "                            set msgData to msgData & {content:" ++ [DQUOTE] ++ js "[Content not available]" ++ [DQUOTE] ++ js "}";
    js "                        end try";
    [];
    js "                        set end of resultList to msgData";
    js "                    on error";
    js "                        -- Skip problematic messages";
    js "                    end try";
    js "                end repeat";
    [];
    js "                if (count of resultList) " ++ [8805%N] ++ js " " ++ Number_toString limit ++ js " then exit repeat";
    js "            on error";
    js "                -- Skip problematic mailboxes";
    js "            end try";
    js "        end repeat";
    js "    on error errMsg";
    js "        return " ++ [DQUOTE] ++ js "Error: " ++ [DQUOTE] ++ js " & errMsg";
    js "    end try";
    [];
    js "    return resultList";
    js "end tell";
    [];
    js "on sortMessagesByDate(messagesList)";
    js "    set sortedMessages to sort messagesList by date sent";
    js "    return sortedMessages";
    js "end sortMessagesByDate" ].

(** The text of the script up to the opening quote of the account name, and
    the text after the closing quote. *)
Definition latest_script_head : jsstring :=
  join [LF] (latest_lines_before ++ [latest_name_line_start]).

Definition latest_script_tail (Number_toString : number -> jsstring) (limit : number) : jsstring :=
  LF :: join [LF] (latest_lines_after Number_toString limit).

(* ===================================================================== *)
(** ** Properties *)
(* ===================================================================== *)

Unset Implicit Arguments.

(** *** Strings *)

Lemma eqb_string_eq (a b : jsstring) : eqb_string a b = true <-> a = b.
Proof.
  revert b; induction a as [|x a IH]; intros [|y b]; simpl; try (split; congruence).
  rewrite andb_true_iff, N.eqb_eq, IH. split.
  - intros [-> ->]; reflexivity.
  - intros H; injection H; auto.
Qed.

Lemma eqb_string_refl (a : jsstring) : eqb_string a a = true.
Proof. apply eqb_string_eq; reflexivity. Qed.

Lemma replace_char_g_flat_map (c : N) (r : jsstring) (f : N -> jsstring) (s : jsstring) :
  replace_char_g c r (flat_map f s) = flat_map (fun x => replace_char_g c r (f x)) s.
Proof.
  unfold replace_char_g. induction s as [|x s IH]; simpl; [reflexivity|].
  rewrite flat_map_app, IH. reflexivity.
Qed.

(** *** escapeAppleScriptString *)

Ltac case_char x c :=
  destruct (N.eqb_spec x c) as [->|?]; [reflexivity|].

Lemma five_passes_on_char (x : N) :
  replace_char_g TAB (js "\t")
    (replace_char_g CR (js "\r")
      (replace_char_g LF (js "\n")
        (replace_char_g DQUOTE [BACKSLASH; DQUOTE]
          (if N.eqb x BACKSLASH then [BACKSLASH; BACKSLASH] else [x])))) = escape_char x.
Proof.
  unfold escape_char.
  case_char x BACKSLASH. case_char x DQUOTE. case_char x LF.
  case_char x CR. case_char x TAB.
  unfold replace_char_g; simpl.
  repeat match goal with
         | H : x <> ?c |- context [N.eqb x ?c] =>
             rewrite (proj2 (N.eqb_neq x c) H); simpl
         end.
  reflexivity.
Qed.

Lemma escape_is_char_wise (s : jsstring) :
  escapeAppleScriptString s = flat_map escape_char s.
Proof.
  unfold escapeAppleScriptString.
  unfold replace_char_g at 5.
  rewrite !replace_char_g_flat_map.
  apply flat_map_ext. intros x. apply five_passes_on_char.
Qed.

Lemma unescape_escape_char (x : N) (w : jsstring) :
  unescape (escape_char x ++ w) = x :: unescape w.
Proof.
  unfold escape_char.
  case_char x BACKSLASH. case_char x DQUOTE. case_char x LF.
  case_char x CR. case_char x TAB.
  simpl. rewrite (proj2 (N.eqb_neq x BACKSLASH)) by assumption. reflexivity.
Qed.

(** C1. Unescaping, which reads the text left to right and maps each of the
    five two-character sequences back to its character, undoes
    [escapeAppleScriptString] on every string. *)
Theorem unescape_escapeAppleScriptString (s : jsstring) :
  unescape (escapeAppleScriptString s) = s.
Proof.
  rewrite escape_is_char_wise.
  induction s as [|x s IH]; simpl; [reflexivity|].
  rewrite unescape_escape_char, IH. reflexivity.
Qed.

(** *** sanitizeLimit *)

Lemma floor_Fin_bounds (q : Q) :
  exists z : Z, Num.floor (Fin q) = of_Z z /\ (inject_Z z <= q)%Q /\ (q < inject_Z (z + 1))%Q.
Proof.
  exists (Qfloor q). split; [reflexivity|]. split.
  - apply Qfloor_le.
  - apply Qlt_floor.
Qed.

Lemma ltb_of_Z (a b : Z) : Num.ltb (of_Z a) (of_Z b) = (a <? b)%Z.
Proof.
  unfold Num.ltb, of_Z, Qlt_bool, Qle_bool, inject_Z; simpl.
  rewrite !Z.mul_1_r. rewrite Z.ltb_antisym. reflexivity.
Qed.

Lemma floor_below_one (q : Q) :
  Num.ltb (Num.floor (Fin q)) (of_Z 1) = true <-> (q < 1)%Q.
Proof.
  simpl Num.floor. rewrite ltb_of_Z, Z.ltb_lt.
  change 1%Q with (inject_Z 1). split; intros H.
  - apply Qlt_le_trans with (inject_Z (Qfloor q + 1)); [apply Qlt_floor|].
    rewrite <- Zle_Qle. lia.
  - assert (Hq : (inject_Z (Qfloor q) < inject_Z 1)%Q).
    { apply Qle_lt_trans with q; [apply Qfloor_le | exact H]. }
    rewrite <- Zlt_Qlt in Hq. exact Hq.
Qed.

Lemma sanitizeLimit_finite (q : Q) (max : number) :
  Security.sanitizeLimit (Fin q) (Some max) =
    if Qlt_le_dec q 1 then of_Z 10 else Num.min (of_Z (Qfloor q)) max.
Proof.
  unfold Security.sanitizeLimit.
  change (isNaN (Num.floor (Fin q))) with false. cbn [orb].
  change (Num.min (of_Z (Qfloor q)) max) with (Num.min (Num.floor (Fin q)) max).
  destruct (Qlt_le_dec q 1) as [Hlt|Hge].
  - rewrite (proj2 (floor_below_one q) Hlt). reflexivity.
  - destruct (Num.ltb (Num.floor (Fin q)) (of_Z 1)) eqn:Hb; [|reflexivity].
    apply floor_below_one in Hb. destruct (Qlt_not_le _ _ Hb Hge).
Qed.

(** C9. [sanitizeLimit] answers 10 when the floor of the limit is [NaN] or
    below 1, and the minimum of that floor and [max] otherwise; for a finite
    limit the first case is the limit being below 1.  Both copies of the
    function (security.ts and database.ts) agree, and the five sample values
    of the specification come out as stated. *)
Theorem sanitizeLimit_floor_clamp (limit max : number) :
  Security.sanitizeLimit limit (Some max) =
    (if isNaN (Num.floor limit) || Num.ltb (Num.floor limit) (of_Z 1)
     then of_Z 10
     else Num.min (Num.floor limit) max)
  /\ (forall q : Q,
        Security.sanitizeLimit (Fin q) (Some max) =
          if Qlt_le_dec q 1 then of_Z 10 else Num.min (of_Z (Qfloor q)) max)
  /\ Database.sanitizeLimit limit (Some max) = Security.sanitizeLimit limit (Some max)
  /\ Security.sanitizeLimit (of_Z (-5)) (Some (of_Z 100)) = of_Z 10
  /\ Security.sanitizeLimit (of_Z 0) (Some (of_Z 100)) = of_Z 10
  /\ Security.sanitizeLimit (of_Z 37) (Some (of_Z 100)) = of_Z 37
  /\ Security.sanitizeLimit (of_Z 500) (Some (of_Z 100)) = of_Z 100
  /\ Security.sanitizeLimit NaN (Some (of_Z 100)) = of_Z 10.
Proof.
  split; [reflexivity|].
  split; [intros q; apply sanitizeLimit_finite|].
  repeat split; reflexivity.
Qed.

(** A limit that is not an integer is floored first. *)
Example sanitizeLimit_fraction :
  Security.sanitizeLimit (Fin (379 # 10)) (Some (of_Z 100)) = of_Z 37
  /\ Security.sanitizeLimit (Fin (1 # 2)) (Some (of_Z 100)) = of_Z 10
  /\ Security.sanitizeLimit (Inf false) None = of_Z 100
  /\ Security.sanitizeLimit (Inf true) None = of_Z 10.
Proof. repeat split; reflexivity. Qed.

(** *** checkAuthentication *)




(** C10. When [MCP_AUTH_TOKEN] is set to the empty string every presented
    token is accepted, exactly as when the variable is not set. *)
Theorem empty_auth_token_disables_authentication
    (env : gmap (list N) (list N)) (token : option jsstring) :
  env !! js "MCP_AUTH_TOKEN" = Some [] ->
  checkAuthentication (securityConfig env) token = true
  /\ checkAuthentication (securityConfig env) token
     = checkAuthentication (securityConfig (delete (js "MCP_AUTH_TOKEN") env)) token.
Proof.
  intros H. unfold checkAuthentication, no_auth_configured, securityConfig; simpl.
  rewrite H. rewrite lookup_delete_eq. split; reflexivity.
Qed.

Lemma empty_auth_token_disables_authentication_witness :
  checkAuthentication (securityConfig {[ js "MCP_AUTH_TOKEN" := [] ]}) (Some (js "anything")) = true
  /\ checkAuthentication (securityConfig {[ js "MCP_AUTH_TOKEN" := [] ]}) (Some (js "anything"))
     = checkAuthentication
         (securityConfig (delete (js "MCP_AUTH_TOKEN") {[ js "MCP_AUTH_TOKEN" := [] ]}))
         (Some (js "anything")).
Proof.
  apply (@empty_auth_token_disables_authentication
           {[ js "MCP_AUTH_TOKEN" := [] ]} (Some (js "anything"))).
  apply lookup_singleton_eq.
Defined.

(** *** RateLimiter *)

Lemma set_limits_same (rl : RateLimiter) : set_limits rl (limits rl) = rl.
Proof. destruct rl; reflexivity. Qed.

Lemma set_limits_twice (rl : RateLimiter) (m1 m2 : gmap (list N) RateLimitEntry) :
  set_limits (set_limits rl m1) m2 = set_limits rl m2.
Proof. reflexivity. Qed.

(** The five limiters of the module: at least one request per window, and a
    window of one minute. *)
Lemma rateLimiters_configuration :
  Forall (fun rl => (1 <= maxRequests rl)%Z /\ windowMs rl = 60000%Z /\ limits rl = ∅)
    [messages rateLimiters; emails rateLimiters; search rateLimiters;
     write rateLimiters; global rateLimiters].
Proof. repeat constructor; simpl; lia. Qed.

(** First use of a key. *)
Lemma check_first_use (rl : RateLimiter) (now : Z) (key : jsstring) :
  limits rl !! key = None ->
  check rl now key =
    (true, set_limits rl (<[key := {| count := 1; resetAt := now + windowMs rl |}]> (limits rl))).
Proof. intros H. unfold check. rewrite H. reflexivity. Qed.

(** The window has elapsed. *)
Lemma check_after_window (rl : RateLimiter) (now : Z) (key : jsstring) (e : RateLimitEntry) :
  limits rl !! key = Some e -> (resetAt e <= now)%Z ->
  check rl now key =
    (true, set_limits rl (<[key := {| count := 1; resetAt := now + windowMs rl |}]> (limits rl))).
Proof.
  intros H Hle. unfold check. rewrite H.
  rewrite (proj2 (Z.leb_le _ _) Hle). reflexivity.
Qed.

(** Inside the window and at the limit: refused, nothing changes. *)
Lemma check_denied (rl : RateLimiter) (now : Z) (key : jsstring) (e : RateLimitEntry) :
  limits rl !! key = Some e -> (now < resetAt e)%Z -> (maxRequests rl <= count e)%Z ->
  check rl now key = (false, rl).
Proof.
  intros H Hlt Hmax. unfold check. rewrite H.
  rewrite (proj2 (Z.leb_gt _ _) Hlt).
  rewrite (proj2 (Z.geb_le _ _) Hmax). reflexivity.
Qed.

(** Inside the window and below the limit: allowed, the count grows by one. *)
Lemma check_counted (rl : RateLimiter) (now : Z) (key : jsstring) (e : RateLimitEntry) :
  limits rl !! key = Some e -> (now < resetAt e)%Z -> (count e < maxRequests rl)%Z ->
  check rl now key =
    (true, set_limits rl (<[key := {| count := count e + 1; resetAt := resetAt e |}]> (limits rl))).
Proof.
  intros H Hlt Hmax. unfold check. rewrite H.
  rewrite (proj2 (Z.leb_gt _ _) Hlt).
  destruct (count e >=? maxRequests rl)%Z eqn:Hge; [|reflexivity].
  apply Z.geb_le in Hge. lia.
Qed.

(** Calls inside one window, as long as the limit is not exceeded, are all
    allowed and counted. *)
Lemma check_all_within_window (ts : list Z) :
  forall (rl : RateLimiter) (key : jsstring) (e : RateLimitEntry),
    limits rl !! key = Some e ->
    Forall (fun t => (t < resetAt e)%Z) ts ->
    (count e + Z.of_nat (length ts) <= maxRequests rl)%Z ->
    check_all rl key ts =
      (repeat true (length ts),
       set_limits rl (<[key := {| count := count e + Z.of_nat (length ts);
                                  resetAt := resetAt e |}]> (limits rl))).
Proof.
  induction ts as [|t ts IH]; intros rl key e He Hts Hmax.
  - simpl. rewrite Z.add_0_r. f_equal.
    rewrite insert_id; [apply eq_sym, set_limits_same|].
    rewrite He. destruct e; reflexivity.
  - inversion Hts as [|? ? Ht Hts']; subst.
    cbn [check_all length]. cbn [length] in Hmax. rewrite Nat2Z.inj_succ in Hmax.
    rewrite (check_counted rl t key e He Ht) by lia.
    erewrite IH; cycle 1.
    + simpl. apply lookup_insert_eq.
    + exact Hts'.
    + simpl. lia.
    + simpl. rewrite insert_insert_eq, Nat2Z.inj_succ, set_limits_twice.
      replace (count e + 1 + Z.of_nat (length ts))%Z
        with (count e + Z.succ (Z.of_nat (length ts)))%Z by lia.
      reflexivity.
Qed.

(** C3. For a limiter with a one-minute window and a key without entry: the
    first [maxRequests] calls made inside the window opened by the first of
    them are all allowed; the next call inside that window is refused and
    leaves the limiter as it was.  A call made when the window of the key
    has elapsed is allowed and stores count 1 and a window ending one minute
    after the call, whatever the key had counted until then: after the
    refusal, and in any other state of a limiter with a one-minute
    window. *)
Theorem rate_limiter_window (rl : RateLimiter) (key : jsstring) (t1 : Z) (ts : list Z)
    (t_over : Z) :
  windowMs rl = 60000%Z ->
  limits rl !! key = None ->
  Z.of_nat (length (t1 :: ts)) = maxRequests rl ->
  Forall (fun t => (t < t1 + 60000)%Z) ts ->
  (t_over < t1 + 60000)%Z ->
  (exists rl1 : RateLimiter,
     check_all rl key (t1 :: ts) = (repeat true (length (t1 :: ts)), rl1)
     /\ limits rl1 !! key = Some {| count := maxRequests rl; resetAt := t1 + 60000 |}
     /\ check rl1 t_over key = (false, rl1)
     /\ forall t_next, (t1 + 60000 <= t_next)%Z ->
          exists rl2 : RateLimiter,
            check rl1 t_next key = (true, rl2)
            /\ limits rl2 !! key = Some {| count := 1; resetAt := t_next + 60000 |})
  /\ (forall (rl' : RateLimiter) (entry : RateLimitEntry) (t_next : Z),
        windowMs rl' = 60000%Z ->
        limits rl' !! key = Some entry ->
        (resetAt entry <= t_next)%Z ->
        exists rl2 : RateLimiter,
          check rl' t_next key = (true, rl2)
          /\ limits rl2 !! key = Some {| count := 1; resetAt := t_next + 60000 |}
          /\ maxRequests rl2 = maxRequests rl' /\ windowMs rl2 = windowMs rl').
Proof.
  intros Hw Hnone Hlen Hts Hover. split.
  - set (e1 := {| count := 1; resetAt := t1 + 60000 |}).
    set (rlA := set_limits rl (<[key := e1]> (limits rl))).
    assert (HA : limits rlA !! key = Some e1) by (simpl; apply lookup_insert_eq).
    cbn [length] in Hlen. rewrite Nat2Z.inj_succ in Hlen.
    assert (Hrest := check_all_within_window ts rlA key e1 HA Hts).
    simpl count in Hrest. simpl resetAt in Hrest. simpl maxRequests in Hrest.
    specialize (Hrest ltac:(lia)).
    eexists. split; [|split; [|split]].
    + cbn [check_all length repeat]. rewrite (check_first_use rl t1 key Hnone), Hw.
      fold e1. fold rlA. rewrite Hrest. reflexivity.
    + simpl. rewrite lookup_insert_eq. f_equal. f_equal. lia.
    + eapply check_denied.
      * simpl. apply lookup_insert_eq.
      * simpl. exact Hover.
      * simpl. lia.
    + intros t_next Hnext. eexists. split.
      * erewrite check_after_window; [reflexivity| |].
        -- simpl. apply lookup_insert_eq.
        -- simpl. exact Hnext.
      * simpl. rewrite lookup_insert_eq, Hw. reflexivity.
  - intros rl' entry t_next Hw' Hentry Hnext. eexists. split; [|split; [|split]].
    + apply (check_after_window rl' t_next key entry Hentry Hnext).
    + unfold set_limits; cbn [limits]. rewrite lookup_insert_eq, Hw'. reflexivity.
    + reflexivity.
    + reflexivity.
Qed.

Lemma rate_limiter_window_witness :
  (exists rl1 : RateLimiter,
     check_all (write rateLimiters) (js "global") [0; 10; 20; 30; 59999]%Z
       = (repeat true 5, rl1)
     /\ limits rl1 !! js "global" = Some {| count := 5; resetAt := 60000 |}
     /\ check rl1 59999 (js "global") = (false, rl1)
     /\ forall t_next, (0 + 60000 <= t_next)%Z ->
          exists rl2 : RateLimiter,
            check rl1 t_next (js "global") = (true, rl2)
            /\ limits rl2 !! js "global" = Some {| count := 1; resetAt := t_next + 60000 |})
  /\ (forall (rl' : RateLimiter) (entry : RateLimitEntry) (t_next : Z),
        windowMs rl' = 60000%Z ->
        limits rl' !! js "global" = Some entry ->
        (resetAt entry <= t_next)%Z ->
        exists rl2 : RateLimiter,
          check rl' t_next (js "global") = (true, rl2)
          /\ limits rl2 !! js "global" = Some {| count := 1; resetAt := t_next + 60000 |}
          /\ maxRequests rl2 = maxRequests rl' /\ windowMs rl2 = windowMs rl').
Proof.
  apply (rate_limiter_window (write rateLimiters) (js "global") 0%Z [10; 20; 30; 59999]%Z
           59999%Z).
  - reflexivity.
  - apply lookup_empty.
  - reflexivity.
  - repeat constructor.
  - reflexivity.
Defined.

(** A window used only in part is reset like any other once it has
    elapsed: after calls at times 0 and 60000 the entry counts 1 and its
    window ends at 120000. *)
Example partly_used_window_is_reset :
  limits (snd (check_all (write rateLimiters) (js "global") [0; 60000]%Z)) !! js "global"
  = Some {| count := 1; resetAt := 120000 |}.
Proof. vm_compute. reflexivity. Qed.

(** A limit of zero, which none of the five limiters has, would still let
    the first call of a window through. *)
Remark check_zero_limit_first_call (key : jsstring) (t : Z) :
  fst (check (newRateLimiter 0 60000) t key) = true.
Proof. unfold check. simpl. rewrite lookup_empty. reflexivity. Qed.

(** *** executeSqliteQuery: the substitution of the placeholders *)

Lemma getSubstitution_plain (matched before after repl : jsstring) :
  forallb (fun c => negb (N.eqb c DOLLAR)) repl = true ->
  getSubstitution matched before after repl = repl.
Proof.
  induction repl as [|x t IH]; simpl; [reflexivity|].
  rewrite andb_true_iff, negb_true_iff. intros [Hx Ht].
  rewrite Hx, IH by assumption. reflexivity.
Qed.

Lemma replace_first_from_no_placeholder (seen repl s : jsstring) :
  no_placeholder s = true ->
  replace_first_from seen QMARK repl s = rev seen ++ s.
Proof.
  revert seen. induction s as [|x t IH]; intros seen; simpl.
  - intros _. rewrite app_nil_r. reflexivity.
  - rewrite andb_true_iff, negb_true_iff. intros [Hx Ht].
    rewrite Hx, IH by assumption. simpl. rewrite <- app_assoc. reflexivity.
Qed.

Lemma replace_first_from_at_placeholder (seen repl pre post : jsstring) :
  no_placeholder pre = true ->
  forallb (fun c => negb (N.eqb c DOLLAR)) repl = true ->
  replace_first_from seen QMARK repl (pre ++ QMARK :: post) = rev seen ++ pre ++ repl ++ post.
Proof.
  intros Hpre Hrepl. revert seen.
  induction pre as [|x t IH]; intros seen; simpl.
  - rewrite getSubstitution_plain by assumption. reflexivity.
  - simpl in Hpre. rewrite andb_true_iff, negb_true_iff in Hpre. destruct Hpre as [Hx Ht].
    rewrite Hx, IH by assumption. simpl. rewrite <- app_assoc. reflexivity.
Qed.

Lemma first_placeholder (q : jsstring) :
  no_placeholder q = true
  \/ exists pre post, q = pre ++ QMARK :: post /\ no_placeholder pre = true.
Proof.
  induction q as [|x t IH]; [left; reflexivity|].
  destruct (N.eqb_spec x QMARK) as [->|Hx].
  - right. exists [], t. split; reflexivity.
  - destruct IH as [Ht | (pre & post & -> & Hpre)].
    + left. simpl. rewrite (proj2 (N.eqb_neq _ _) Hx), Ht. reflexivity.
    + right. exists (x :: pre), post. split; [reflexivity|].
      simpl. rewrite (proj2 (N.eqb_neq _ _) Hx), Hpre. reflexivity.
Qed.

Lemma substitute_positional_prefix (pre q : jsstring) (ps : list param) :
  no_placeholder pre = true ->
  substitute_positional (pre ++ q) ps = pre ++ substitute_positional q ps.
Proof.
  induction pre as [|x t IH]; simpl; [reflexivity|].
  rewrite andb_true_iff, negb_true_iff. intros [Hx Ht].
  rewrite Hx, IH by assumption. reflexivity.
Qed.

Lemma substitute_positional_no_placeholder (q : jsstring) (ps : list param) :
  no_placeholder q = true -> substitute_positional q ps = q.
Proof.
  intros H. rewrite <- (app_nil_r q) at 1.
  rewrite substitute_positional_prefix by assumption. simpl. apply app_nil_r.
Qed.

Lemma parameterizedQuery_no_placeholder (ps : list param) (q : jsstring) :
  no_placeholder q = true -> parameterizedQuery q ps = q.
Proof.
  unfold parameterizedQuery. induction ps as [|p ps IH]; simpl; [reflexivity|].
  intros H. unfold replace_first. rewrite replace_first_from_no_placeholder by assumption.
  simpl. apply IH, H.
Qed.

Lemma uint_digits_plain (d : Decimal.uint) :
  forallb plain_char (js (NilEmpty.string_of_uint d)) = true.
Proof. induction d; simpl; auto. Qed.

Lemma string_of_Z_plain (z : Z) : forallb plain_char (string_of_Z z) = true.
Proof.
  unfold string_of_Z, NilZero.string_of_int.
  destruct (Z.to_int z) as [d|d]; destruct d; simpl;
    try reflexivity; apply uint_digits_plain.
Qed.

Lemma forallb_plain_split (s : jsstring) :
  forallb plain_char s = true ->
  no_placeholder s = true /\ forallb (fun c => negb (N.eqb c DOLLAR)) s = true.
Proof.
  unfold no_placeholder, plain_char. induction s as [|x t IH]; simpl; [auto|].
  rewrite !andb_true_iff. intros [[Hq Hd] Ht]. destruct (IH Ht) as [H1 H2].
  rewrite Hq, Hd, H1, H2. auto.
Qed.

Lemma escaped_plain (p : param) :
  plain_param p = true -> forallb plain_char (escaped p) = true.
Proof.
  destruct p as [s|z]; simpl; intros H; [|apply string_of_Z_plain].
  rewrite forallb_app. simpl. rewrite andb_true_r.
  unfold replace_char_g. induction s as [|x t IH]; simpl; [reflexivity|].
  simpl in H. rewrite andb_true_iff in H. destruct H as [Hx Ht].
  rewrite forallb_app, IH by assumption. rewrite andb_true_r.
  destruct (N.eqb x SQUOTE); simpl; [reflexivity|]. rewrite Hx. reflexivity.
Qed.

(** When no parameter text holds a question mark or a dollar, the loop of
    [executeSqliteQuery] is the positional substitution. *)
Lemma parameterizedQuery_plain_params (ps : list param) :
  forallb plain_param ps = true ->
  forall q, parameterizedQuery q ps = substitute_positional q ps.
Proof.
  induction ps as [|p ps IH]; intros Hps q.
  - simpl. clear. induction q as [|x t IH]; simpl; [reflexivity|].
    rewrite <- IH. destruct (N.eqb x QMARK); reflexivity.
  - simpl in Hps. rewrite andb_true_iff in Hps. destruct Hps as [Hp Hps].
    destruct (forallb_plain_split _ (escaped_plain p Hp)) as [Hnq Hnd].
    destruct (first_placeholder q) as [Hq | (pre & post & -> & Hpre)].
    + rewrite parameterizedQuery_no_placeholder, substitute_positional_no_placeholder
        by assumption. reflexivity.
    + change (parameterizedQuery (pre ++ QMARK :: post) (p :: ps))
        with (parameterizedQuery (replace_first QMARK (escaped p) (pre ++ QMARK :: post)) ps).
      unfold replace_first. rewrite replace_first_from_at_placeholder by assumption.
      simpl rev. simpl app at 1. rewrite IH by assumption.
      rewrite app_assoc, !substitute_positional_prefix.
      * simpl. rewrite <- app_assoc. reflexivity.
      * exact Hpre.
      * unfold no_placeholder in *. rewrite forallb_app, Hpre, Hnq. reflexivity.
Qed.

(** C2. A question mark inside a string parameter is taken for the next
    placeholder: with the template [a = ? AND b = ?] and the parameters
    ["x?y", 5] the second value lands inside the first literal and the
    second placeholder stays, whereas positional substitution gives each
    placeholder its own value.  A parameter ending in a dollar pulls the
    rest of the query into its literal. *)
Theorem parameterizedQuery_rescans_inserted_text :
  parameterizedQuery (js "a = ? AND b = ?") [PString (js "x?y"); PNumber 5]
    = js "a = 'x5y' AND b = ?"
  /\ substitute_positional (js "a = ? AND b = ?") [PString (js "x?y"); PNumber 5]
    = js "a = 'x?y' AND b = 5"
  /\ parameterizedQuery (js "a = ? AND b = ?") [PString (js "US$"); PNumber 5]
    = js "a = 'US AND b = 5 AND b = ?".
Proof. repeat split; vm_compute; reflexivity. Qed.

(** *** validateSearchQuery *)

(** C6 (as stated). A query of 501 characters, one letter followed by 500
    spaces, is refused by [validateSearchQuery], although its trimmed text
    is one harmless letter: the length limit is applied before trimming. *)
Lemma validateSearchQuery_trim_first_counterexample :
  let query := 97%N :: repeat 32%N 500 in
  trim query = [97%N]
  /\ validateSearchQuery_trim_first query = Ok [97%N]
  /\ validateSearchQuery query
     = Throw (ValidationError (js "Invalid search query") (Some (js "searchQuery")))
  /\ validateSearchQuery query <> validateSearchQuery_trim_first query.
Proof.
  assert (Ht : trim (97%N :: repeat 32%N 500) = [97%N]) by (vm_compute; reflexivity).
  assert (Hs : validateSearchQuery_trim_first (97%N :: repeat 32%N 500) = Ok [97%N])
    by (vm_compute; reflexivity).
  assert (Hc : validateSearchQuery (97%N :: repeat 32%N 500)
               = Throw (ValidationError (js "Invalid search query") (Some (js "searchQuery"))))
    by (vm_compute; reflexivity).
  cbv zeta. repeat split; try assumption.
  rewrite Hs, Hc. discriminate.
Qed.

(** C6 (amended). [validateSearchQuery] refuses an input that is empty or
    longer than 500 characters as given; otherwise it trims the input,
    refuses the trimmed text when it matches a dangerous pattern, and
    returns the trimmed text when it does not. *)
Theorem validateSearchQuery_length_then_trim (query : jsstring) :
  validateSearchQuery query =
    if Nat.ltb (length query) 1 || Nat.ltb 500 (length query)
    then Throw (ValidationError (js "Invalid search query") (Some (js "searchQuery")))
    else if containsDangerousPattern (trim query)
    then Throw (ValidationError (js "Search query contains forbidden patterns")
                  (Some (js "searchQuery")))
    else Ok (trim query).
Proof.
  unfold validateSearchQuery, zparse, searchQuerySchema.
  cbn [zchecks ztransform flat_map zissue].
  destruct (Nat.ltb (length query) 1); destruct (Nat.ltb 500 (length query));
    cbn [app orb rethrow_validation]; try reflexivity.
  destruct (containsDangerousPattern (trim query)); reflexivity.
Qed.

(** The pattern scan ignores case and accepts any white space between the
    words of a signature. *)
Example dangerous_patterns_samples :
  containsDangerousPattern (js "please Do  Shell script now") = true
  /\ containsDangerousPattern (js "drop" ++ [TAB; LF] ++ js "table users") = true
  /\ containsDangerousPattern (js "EXECutive summary") = true
  /\ containsDangerousPattern (js "quarterly report") = false.
Proof. repeat split; vm_compute; reflexivity. Qed.

(** Every validator throws nothing but a [ValidationError]. *)
Lemma rethrow_validation_error (r : result jsstring) (message field : jsstring) (e : JsError) :
  rethrow_validation r message field = Throw e ->
  exists m f, e = ValidationError m f.
Proof.
  destruct r as [v|[m f|m|m|l]]; simpl; intros H; inversion H; eauto.
Qed.

Lemma validateSearchQuery_error (query : jsstring) (e : JsError) :
  validateSearchQuery query = Throw e -> exists m f, e = ValidationError m f.
Proof. apply rethrow_validation_error. Qed.

Lemma validateMessageContent_error (content : jsstring) (e : JsError) :
  validateMessageContent content = Throw e -> exists m f, e = ValidationError m f.
Proof. apply rethrow_validation_error. Qed.

Lemma validateEmail_error (zod_email : jsstring -> bool) (email : jsstring) (e : JsError) :
  validateEmail zod_email email = Throw e -> exists m f, e = ValidationError m f.
Proof.
  unfold validateEmail. destruct (zparse _ _); intros H; inversion H; eauto.
Qed.

(** *** The mail operations *)

Lemma keeps_ret {A} (a : A) : keeps_audit (ret a).
Proof. intros w; reflexivity. Qed.

Lemma keeps_throw {A} (e : JsError) : keeps_audit (@throw A e).
Proof. intros w; reflexivity. Qed.

Lemma keeps_lift {A} (r : result A) : keeps_audit (lift r).
Proof. intros w; reflexivity. Qed.

Lemma keeps_bind {A B} (m : M A) (k : A -> M B) :
  keeps_audit m -> (forall a, keeps_audit (k a)) -> keeps_audit (bind m k).
Proof.
  intros Hm Hk w. unfold bind. specialize (Hm w).
  destruct (m w) as [[a|e] w1]; simpl in *; [|exact Hm].
  rewrite Hk. exact Hm.
Qed.

Lemma keeps_try_catch {A} (m : M A) (h : JsError -> M A) :
  keeps_audit m -> (forall e, keeps_audit (h e)) -> keeps_audit (try_catch m h).
Proof.
  intros Hm Hh w. unfold try_catch. specialize (Hm w).
  destruct (m w) as [[a|e] w1]; simpl in *; [exact Hm|].
  rewrite Hh. exact Hm.
Qed.

Lemma keeps_check_search : keeps_audit check_search.
Proof. intros w. unfold check_search. destruct (check _ _ _); reflexivity. Qed.

Lemma keeps_check_emails : keeps_audit check_emails.
Proof. intros w. unfold check_emails. destruct (check _ _ _); reflexivity. Qed.

Lemma keeps_check_global : keeps_audit check_global.
Proof. intros w. unfold check_global. destruct (check _ _ _); reflexivity. Qed.

Lemma keeps_quiet {A} (m : M A) : keeps_audit m -> quiet_on_throw m.
Proof. intros H w e _. apply H. Qed.

Lemma never_throws_quiet {A} (m : M A) : never_throws m -> quiet_on_throw m.
Proof. intros H w e He. destruct (H w) as [a Ha]. congruence. Qed.

Lemma quiet_bind {A B} (m : M A) (k : A -> M B) :
  keeps_audit m -> (forall a, quiet_on_throw (k a)) -> quiet_on_throw (bind m k).
Proof.
  intros Hm Hk w e. unfold bind. specialize (Hm w).
  destruct (m w) as [[a|e1] w1]; simpl in *; [|intros _; exact Hm].
  intros He. rewrite (Hk a w1 e He). exact Hm.
Qed.

Lemma quiet_try_catch {A} (m : M A) (h : JsError -> M A) :
  quiet_on_throw m -> (forall e, keeps_audit (h e)) -> quiet_on_throw (try_catch m h).
Proof.
  intros Hm Hh w e. unfold try_catch. specialize (Hm w).
  destruct (m w) as [[a|e1] w1]; simpl in *; [discriminate|].
  intros _. rewrite Hh. apply (Hm e1). reflexivity.
Qed.

Create HintDb audit.

#[local] Hint Resolve keeps_ret keeps_throw keeps_lift keeps_check_search
  keeps_check_emails keeps_check_global : audit.

Section MailProperties.

Variable runAppleScript_answer : list ExternalCall -> Script -> result jsstring.
Variable run_mails_answer : list ExternalCall -> JxaCall -> result (list EmailMessage).
Variable run_send_answer : list ExternalCall -> JxaCall -> result jsstring.
Variable JSON_parse : jsstring -> result jsvalue.
Variable Date_toString : Z -> jsstring.
Variable zod_email : jsstring -> bool.
Variable securityConfig : SecurityConfig.

Lemma keeps_runAppleScript (s : Script) : keeps_audit (runAppleScript runAppleScript_answer s).
Proof. intros w; reflexivity. Qed.

Lemma keeps_run_mails (c : JxaCall) : keeps_audit (run_mails run_mails_answer c).
Proof. intros w; reflexivity. Qed.

Lemma keeps_run_send (c : JxaCall) : keeps_audit (run_send run_send_answer c).
Proof. intros w; reflexivity. Qed.

Lemma keeps_newDateString : keeps_audit (newDateString Date_toString).
Proof. intros w; reflexivity. Qed.

(** Goes through a computation built from the combinators. *)
Ltac keeps_step :=
  first
    [ apply keeps_bind; [|intros ?]
    | apply keeps_try_catch; [|intros ?]
    | apply keeps_runAppleScript
    | apply keeps_run_mails
    | apply keeps_run_send
    | apply keeps_newDateString
    | solve [auto with audit]
    | match goal with
      | |- keeps_audit (if ?b then _ else _) => destruct b
      | |- keeps_audit (match ?x with _ => _ end) => destruct x
      end ].

Lemma keeps_checkMailAccess : keeps_audit (checkMailAccess runAppleScript_answer).
Proof. unfold checkMailAccess. repeat keeps_step. Qed.

Lemma keeps_validate_optional_email (x : option jsstring) :
  keeps_audit (validate_optional_email zod_email x).
Proof. unfold validate_optional_email. repeat keeps_step. Qed.

Lemma keeps_searchMails (searchTerm : jsstring) (limit : option number) :
  keeps_audit (searchMails runAppleScript_answer run_mails_answer JSON_parse Date_toString
                 securityConfig searchTerm limit).
Proof.
  unfold searchMails.
  repeat first [apply keeps_checkMailAccess | keeps_step].
Qed.

(** No failure of [sendMail] is audited. *)
Lemma sendMail_failure_not_audited (to subject body : jsstring) (cc bcc : option jsstring) :
  quiet_on_throw (sendMail runAppleScript_answer run_send_answer zod_email securityConfig
                    to subject body cc bcc).
Proof.
  unfold sendMail.
  apply quiet_try_catch; [|intros ?; apply keeps_throw].
  apply quiet_bind; [apply keeps_lift|intros validatedTo].
  apply quiet_bind; [apply keeps_lift|intros validatedSubject].
  apply quiet_bind; [apply keeps_lift|intros validatedBody].
  apply quiet_bind; [apply keeps_validate_optional_email|intros validatedCc].
  apply quiet_bind; [apply keeps_validate_optional_email|intros validatedBcc].
  apply quiet_bind; [repeat keeps_step|intros _].
  apply quiet_bind; [apply keeps_checkMailAccess|intros access].
  destruct (negb access); [apply keeps_quiet, keeps_throw|].
  apply quiet_bind; [apply keeps_runAppleScript|intros _].
  apply quiet_try_catch; [|intros ?; repeat keeps_step].
  apply quiet_bind; [apply keeps_runAppleScript|intros result].
  apply never_throws_quiet. intros w.
  destruct (eqb_string result (js "success")); [|eexists; reflexivity].
  destruct (enableAuditLogging securityConfig); eexists; reflexivity.
Qed.

(** C7 (amended). When a validator rejects an input, [searchMails] and
    [sendMail] stop at once: no limiter is consulted, no script is run, no
    audit entry is written (the state of the process is unchanged), and
    the caller receives a plain [Error] whose message is the operation's
    prefix followed by the message of the [ValidationError]. *)
Theorem validation_failure_stops_operation (w : World) :
  (forall searchTerm limit e,
      validateSearchQuery searchTerm = Throw e ->
      searchMails runAppleScript_answer run_mails_answer JSON_parse Date_toString
        securityConfig searchTerm limit w
      = (Throw (Error (js "Error searching mail: " ++ error_message e)), w)
      /\ exists m f, e = ValidationError m f)
  /\ (forall to subject body cc bcc e,
      sendMail_validation zod_email to subject body cc bcc = Throw e ->
      sendMail runAppleScript_answer run_send_answer zod_email securityConfig
        to subject body cc bcc w
      = (Throw (Error (js "Error sending mail: " ++ error_message e)), w)
      /\ exists m f, e = ValidationError m f).
Proof.
  split.
  - intros searchTerm limit e H. split; [|eapply validateSearchQuery_error; eauto].
    unfold searchMails, try_catch, bind, lift. rewrite H. reflexivity.
  - intros to subject body cc bcc e.
    unfold sendMail_validation, sendMail, try_catch, bind, lift, rbind.
    destruct (validateEmail zod_email to) as [vt|e1] eqn:Hto.
    2:{ intros H; inversion H; subst. split; [reflexivity|].
        eapply validateEmail_error; eauto. }
    destruct (validateMessageContent subject) as [vs|e1] eqn:Hs.
    2:{ intros H; inversion H; subst. split; [reflexivity|].
        eapply validateMessageContent_error; eauto. }
    destruct (validateMessageContent body) as [vb|e1] eqn:Hb.
    2:{ intros H; inversion H; subst. split; [reflexivity|].
        eapply validateMessageContent_error; eauto. }
    unfold validate_optional, validate_optional_email, bind, lift, ret, rbind.
    destruct (truthy_opt cc) eqn:Hcc; [destruct cc as [c|]; [|discriminate]|].
    + destruct (validateEmail zod_email c) as [vc|e1] eqn:Hc.
      2:{ intros H; inversion H; subst. split; [reflexivity|].
          eapply validateEmail_error; eauto. }
      destruct (truthy_opt bcc) eqn:Hbcc; [destruct bcc as [b|]; [|discriminate]|].
      * destruct (validateEmail zod_email b) as [vbc|e1] eqn:Hbc; [discriminate|].
        intros H; inversion H; subst. split; [reflexivity|].
        eapply validateEmail_error; eauto.
      * discriminate.
    + destruct (truthy_opt bcc) eqn:Hbcc; [destruct bcc as [b|]; [|discriminate]|].
      * destruct (validateEmail zod_email b) as [vbc|e1] eqn:Hbc; [discriminate|].
        intros H; inversion H; subst. split; [reflexivity|].
        eapply validateEmail_error; eauto.
      * discriminate.
Qed.

Lemma both_tokens_included (raw : jsstring) :
  2 <= length (List.filter (includes raw) expected_tokens) ->
  includes raw (js "subject") = true /\ includes raw (js "sender") = true.
Proof.
  unfold expected_tokens. cbn [List.filter].
  destruct (includes raw (js "subject")); destruct (includes raw (js "sender"));
    cbn [length]; intros H; first [split; reflexivity | lia].
Qed.

Lemma unread_from_script_fallback (date : jsvalue) (raw : jsstring) :
  (forall l, unread_json_branch JSON_parse date raw <> JsonRecords l) ->
  unread_record_branch date raw = [] ->
  includes raw (js "subject") = true ->
  includes raw (js "sender") = true ->
  unread_from_script JSON_parse date raw = Some [debug_record date raw].
Proof.
  intros Ha Hb Hs1 Hs2. unfold unread_from_script, unread_parse.
  rewrite Hb, Hs1, Hs2.
  destruct (unread_json_branch JSON_parse date raw) as [l| |] eqn:Hjson.
  - destruct (Ha l eq_refl).
  - destruct (_ && _); reflexivity.
  - destruct (_ && _); reflexivity.
Qed.

(** C5. When Mail is reachable and the unread-mail script answers a text
    from which the JSON branch returns no records and the record scan
    accepts no group, but which contains both expected field names,
    [getUnreadMails] returns exactly one record: the diagnostic one, filed
    under the mailbox "Debug", whose content ends with the raw text,
    unchanged. *)
Theorem getUnreadMails_raw_output_fallback (limit : number) (w w1 : World) (raw : jsstring) :
  checkMailAccess runAppleScript_answer w = (Ok true, w1) ->
  runAppleScript_answer (calls w1) (UnreadScript limit) = Ok raw ->
  (forall l, unread_json_branch JSON_parse (JStr (Date_toString (now w1))) raw
             <> JsonRecords l) ->
  unread_record_branch (JStr (Date_toString (now w1))) raw = [] ->
  2 <= length (List.filter (includes raw) expected_tokens) ->
  getUnreadMails runAppleScript_answer run_mails_answer JSON_parse Date_toString
    (Some limit) w
  = (Ok [ {| subject := JStr (js "Raw AppleScript Output");
             sender := JStr (js "Mail System");
             dateSent := JStr (Date_toString (now w1));
             content := JStr (js "Could not parse Mail data properly. Raw output: " ++ raw);
             isRead := JBool false;
             mailbox := JStr (js "Debug") |} ],
     add_call w1 (CallScript (UnreadScript limit))).
Proof.
  intros Hacc Hraw Ha Hb Htok.
  destruct (both_tokens_included raw Htok) as [Hs1 Hs2].
  unfold getUnreadMails, try_catch, bind. rewrite Hacc. cbn [negb].
  unfold runAppleScript at 1. rewrite Hraw.
  unfold newDateString, ret. cbn [now add_call].
  rewrite (unread_from_script_fallback _ raw Ha Hb Hs1 Hs2). reflexivity.
Qed.

End MailProperties.

(** *** Concrete runs *)
Lemma getUnreadMails_raw_output_fallback_witness :
  getUnreadMails (scripts_answering (js "subject and sender but no record")) no_mails
    json_rejects date_zero (Some (of_Z 10)) initial_world
  = (Ok [ {| subject := JStr (js "Raw AppleScript Output");
             sender := JStr (js "Mail System");
             dateSent := JStr (js "Thu Jan 01 1970");
             content := JStr (js "Could not parse Mail data properly. Raw output: "
                                ++ js "subject and sender but no record");
             isRead := JBool false;
             mailbox := JStr (js "Debug") |} ],
     add_call
       (add_call (add_call initial_world (CallScript CheckMailRunning))
          (CallScript CountMailboxes))
       (CallScript (UnreadScript (of_Z 10)))).
Proof.
  apply (getUnreadMails_raw_output_fallback
           (scripts_answering (js "subject and sender but no record")) no_mails
           json_rejects date_zero (of_Z 10) initial_world
           (add_call (add_call initial_world (CallScript CheckMailRunning))
              (CallScript CountMailboxes))
           (js "subject and sender but no record")).
  - reflexivity.
  - reflexivity.
  - intros l. vm_compute. discriminate.
  - vm_compute. reflexivity.
  - vm_compute. lia.
Defined.

(** C7 (as stated). An empty search term is rejected by the validator with
    a [ValidationError]; what [searchMails] throws is not that error but a
    plain [Error] with a prefixed message. *)
Lemma searchMails_validation_error_counterexample :
  validateSearchQuery []
    = Throw (ValidationError (js "Invalid search query") (Some (js "searchQuery")))
  /\ fst (searchMails (scripts_answering []) no_mails json_rejects date_zero default_config
            [] None initial_world)
     = Throw (Error (js "Error searching mail: Invalid search query"))
  /\ fst (searchMails (scripts_answering []) no_mails json_rejects date_zero default_config
            [] None initial_world)
     <> Throw (ValidationError (js "Invalid search query") (Some (js "searchQuery"))).
Proof.
  assert (H : fst (searchMails (scripts_answering []) no_mails json_rejects date_zero
                     default_config [] None initial_world)
              = Throw (Error (js "Error searching mail: Invalid search query")))
    by reflexivity.
  split; [reflexivity|]. split; [exact H|]. rewrite H. discriminate.
Qed.

Lemma validation_failure_stops_operation_witness :
  searchMails (scripts_answering []) no_mails json_rejects date_zero default_config
    [] None initial_world
  = (Throw (Error (js "Error searching mail: Invalid search query")), initial_world)
  /\ sendMail (scripts_answering []) jxa_send_works no_email default_config
       (js "nobody") (js "Hello") (js "Body") None None initial_world
     = (Throw (Error (js "Error sending mail: Invalid email address")), initial_world).
Proof.
  split.
  - apply (proj1 (validation_failure_stops_operation (scripts_answering []) no_mails
                    jxa_send_works json_rejects date_zero no_email default_config
                    initial_world)
             [] None
             (ValidationError (js "Invalid search query") (Some (js "searchQuery")))).
    reflexivity.
  - apply (proj2 (validation_failure_stops_operation (scripts_answering []) no_mails
                    jxa_send_works json_rejects date_zero no_email default_config
                    initial_world)
             (js "nobody") (js "Hello") (js "Body") None None
             (ValidationError (js "Invalid email address") (Some (js "email")))).
    reflexivity.
Defined.

(** The one place where an entry is written: the script that sends the
    message has answered "success". *)
Example sendMail_script_success_is_audited :
  logs (audit (snd (sendMail send_script_succeeds jxa_send_works any_email default_config
                      (js "a@b.co") (js "Hello") (js "Body") None None initial_world)))
  = [ {| timestamp := 0; operation := js "sendMail"; user := None;
         details := [(js "to", JStr (js "a@b.co")); (js "subject", JStr (js "Hello"));
                     (js "cc", JUndefined); (js "bcc", JUndefined)];
         success := true; error := None |} ].
Proof. vm_compute. reflexivity. Qed.

(** C8. With audit logging enabled, [searchMails] never writes an audit
    entry, whatever its outcome; and [sendMail] writes none when the script
    fails, neither when the object-automation path then fails as well (the
    caller gets the error, the log stays empty) nor when it succeeds. *)
Theorem audit_entry_only_on_script_success :
  enableAuditLogging default_config = true
  /\ (forall runAppleScript_answer run_mails_answer JSON_parse Date_toString securityConfig
             searchTerm limit w,
        audit (snd (searchMails runAppleScript_answer run_mails_answer JSON_parse
                      Date_toString securityConfig searchTerm limit w)) = audit w)
  /\ fst (sendMail send_script_fails jxa_send_fails any_email default_config
            (js "a@b.co") (js "Hello") (js "Body") None None initial_world)
     = Throw (Error (js "Error sending mail: JXA error: Error: boom"))
  /\ logs (audit (snd (sendMail send_script_fails jxa_send_fails any_email default_config
                         (js "a@b.co") (js "Hello") (js "Body") None None initial_world)))
     = []
  /\ fst (sendMail send_script_fails jxa_send_works any_email default_config
            (js "a@b.co") (js "Hello") (js "Body") None None initial_world)
     = Ok (Some (sent_message (js "a@b.co") (js "Hello")))
  /\ logs (audit (snd (sendMail send_script_fails jxa_send_works any_email default_config
                         (js "a@b.co") (js "Hello") (js "Body") None None initial_world)))
     = [].
Proof.
  split; [reflexivity|].
  split; [intros; apply keeps_searchMails|].
  repeat split; vm_compute; reflexivity.
Qed.

(* ===================================================================== *)
(** ** Further properties *)
(* ===================================================================== *)

(** *** What the consumers read back from the escaped texts *)

Lemma literal_body_escape_char (x : N) (w : jsstring) :
  literal_body (escape_char x ++ w) =
    match literal_body w with
    | Some (body, rest) => Some (escape_char x ++ body, rest)
    | None => None
    end.
Proof.
  unfold escape_char.
  destruct (N.eqb_spec x BACKSLASH) as [->|H1];
    [simpl; destruct (literal_body w) as [[b r]|]; reflexivity|].
  destruct (N.eqb_spec x DQUOTE) as [->|H2];
    [simpl; destruct (literal_body w) as [[b r]|]; reflexivity|].
  destruct (N.eqb_spec x LF) as [->|H3];
    [simpl; destruct (literal_body w) as [[b r]|]; reflexivity|].
  destruct (N.eqb_spec x CR) as [->|H4];
    [simpl; destruct (literal_body w) as [[b r]|]; reflexivity|].
  destruct (N.eqb_spec x TAB) as [->|H5];
    [simpl; destruct (literal_body w) as [[b r]|]; reflexivity|].
  simpl. rewrite (proj2 (N.eqb_neq _ _) H1), (proj2 (N.eqb_neq _ _) H2).
  destruct (literal_body w) as [[b r]|]; reflexivity.
Qed.

Lemma literal_body_escaped (s rest : jsstring) :
  literal_body (flat_map escape_char s ++ DQUOTE :: rest)
  = Some (flat_map escape_char s, rest).
Proof.
  induction s as [|x s IH]; [reflexivity|].
  cbn [flat_map]. rewrite <- app_assoc, literal_body_escape_char, IH. reflexivity.
Qed.

Lemma unescape_escaped (s : jsstring) : unescape (flat_map escape_char s) = s.
Proof.
  induction s as [|x s IH]; [reflexivity|].
  cbn [flat_map]. rewrite unescape_escape_char, IH. reflexivity.
Qed.

(** X1. Whatever the text, a script literal made of the opening quote, the
    escaped text and the closing quote is read back as that text, and the
    reading stops at the closing quote: the text can neither end the literal
    early nor run past its end. *)
Theorem escaped_text_fills_one_literal (s rest : jsstring) :
  read_literal (escapeAppleScriptString s ++ DQUOTE :: rest) = Some (s, rest).
Proof.
  unfold read_literal. rewrite escape_is_char_wise, literal_body_escaped, unescape_escaped.
  reflexivity.
Qed.

Lemma literal_body_plain_char (x : N) (w : jsstring) :
  x <> BACKSLASH -> x <> DQUOTE ->
  literal_body (x :: w) = prepend x (literal_body w).
Proof.
  intros H1 H2. simpl.
  rewrite (proj2 (N.eqb_neq _ _) H1), (proj2 (N.eqb_neq _ _) H2). reflexivity.
Qed.

Lemma literal_body_escape_quotes (p w : jsstring) :
  no_backslash p = true ->
  literal_body (escape_quotes p ++ w) =
    match literal_body w with
    | Some (body, rest) => Some (escape_quotes p ++ body, rest)
    | None => None
    end.
Proof.
  unfold escape_quotes, replace_char_g, no_backslash.
  induction p as [|x p IH]; intros Hp.
  - simpl. destruct (literal_body w) as [[b r]|]; reflexivity.
  - simpl in Hp. rewrite andb_true_iff, negb_true_iff in Hp. destruct Hp as [Hx Hp].
    apply N.eqb_neq in Hx. cbn [flat_map].
    destruct (N.eqb_spec x DQUOTE) as [->|Hq].
    + rewrite <- app_assoc. simpl. rewrite (IH Hp).
      destruct (literal_body w) as [[b r]|]; reflexivity.
    + rewrite <- app_assoc. simpl app.
      rewrite (literal_body_plain_char x _ Hx Hq), (IH Hp).
      destruct (literal_body w) as [[b r]|]; reflexivity.
Qed.

Lemma unescape_escape_quotes (p w : jsstring) :
  no_backslash p = true ->
  unescape (escape_quotes p ++ w) = p ++ unescape w.
Proof.
  unfold escape_quotes, replace_char_g, no_backslash.
  induction p as [|x p IH]; intros Hp; [reflexivity|].
  simpl in Hp. rewrite andb_true_iff, negb_true_iff in Hp. destruct Hp as [Hx Hp].
  cbn [flat_map]. destruct (N.eqb_spec x DQUOTE) as [->|Hq].
  - rewrite <- app_assoc. simpl. rewrite (IH Hp). reflexivity.
  - rewrite <- app_assoc. simpl. rewrite Hx, (IH Hp). reflexivity.
Qed.

Lemma read_literal_account_name (p rest : jsstring) :
  no_backslash p = true ->
  read_literal (escape_quotes p ++ DQUOTE :: rest) = Some (p, rest)
  /\ read_literal (escape_quotes (p ++ [BACKSLASH]) ++ DQUOTE :: rest)
     = match read_literal rest with
       | Some (more, rest') => Some (p ++ DQUOTE :: more, rest')
       | None => None
       end.
Proof.
  intros Hp. unfold read_literal. split.
  - rewrite (literal_body_escape_quotes p _ Hp).
    change (literal_body (DQUOTE :: rest)) with (Some (@nil N, rest)).
    cbv iota beta. rewrite (unescape_escape_quotes p [] Hp).
    simpl. rewrite app_nil_r. reflexivity.
  - assert (He : escape_quotes (p ++ [BACKSLASH]) = escape_quotes p ++ [BACKSLASH]).
    { unfold escape_quotes, replace_char_g. rewrite flat_map_app. reflexivity. }
    rewrite He, <- app_assoc, (literal_body_escape_quotes p _ Hp).
    change (literal_body ([BACKSLASH] ++ DQUOTE :: rest))
      with (prepend BACKSLASH (prepend DQUOTE (literal_body rest))).
    destruct (literal_body rest) as [[b r]|]; [|reflexivity].
    cbv iota beta delta [prepend].
    rewrite (unescape_escape_quotes p _ Hp). reflexivity.
Qed.

Lemma join_cons_more (sep x : jsstring) (r : list jsstring) :
  r <> [] -> join sep (x :: r) = x ++ sep ++ join sep r.
Proof. destruct r; [congruence|reflexivity]. Qed.

(** A text put at the end of a line stays in one piece in the joined
    lines, between what comes before and what comes after. *)
Lemma join_around (sep : jsstring) (l1 : list jsstring) (a b : jsstring)
    (l2 : list jsstring) :
  l2 <> [] ->
  join sep (l1 ++ (a ++ b) :: l2) = join sep (l1 ++ [a]) ++ b ++ sep ++ join sep l2.
Proof.
  intros Hne. induction l1 as [|x l1 IH].
  - cbn [app]. rewrite (join_cons_more sep (a ++ b) l2 Hne). cbn [join].
    rewrite <- app_assoc. reflexivity.
  - change ((x :: l1) ++ (a ++ b) :: l2) with (x :: (l1 ++ (a ++ b) :: l2)).
    change ((x :: l1) ++ [a]) with (x :: (l1 ++ [a])).
    rewrite (join_cons_more sep x (l1 ++ (a ++ b) :: l2)) by (destruct l1; discriminate).
    rewrite (join_cons_more sep x (l1 ++ [a])) by (destruct l1; discriminate).
    rewrite IH, <- !app_assoc. reflexivity.
Qed.

Lemma skipn_past_head (h : jsstring) (c : N) (x : jsstring) :
  skipn (S (length h)) (h ++ c :: x) = x.
Proof. induction h as [|y h IH]; [reflexivity|exact IH]. Qed.

Lemma mailboxes_script_shape (name : jsstring) :
  mailboxes_script name
  = mailboxes_script_head ++ DQUOTE :: escape_quotes name ++ DQUOTE :: mailboxes_script_tail.
Proof.
  transitivity (join [LF] (mailboxes_lines_before ++ [mailboxes_name_line_start])
                ++ (DQUOTE :: escape_quotes name ++ [DQUOTE]) ++ [LF]
                ++ join [LF] mailboxes_lines_after).
  - exact (join_around [LF] mailboxes_lines_before mailboxes_name_line_start
             (DQUOTE :: escape_quotes name ++ [DQUOTE]) mailboxes_lines_after
             ltac:(discriminate)).
  - unfold mailboxes_script_head, mailboxes_script_tail.
    cbn [app]. rewrite <- app_assoc. reflexivity.
Qed.

Lemma latest_script_shape (Number_toString : number -> jsstring) (limit : number)
    (name : jsstring) :
  latest_script Number_toString name limit
  = latest_script_head ++ DQUOTE :: escape_quotes name ++ DQUOTE
      :: latest_script_tail Number_toString limit.
Proof.
  transitivity (join [LF] (latest_lines_before ++ [latest_name_line_start])
                ++ (DQUOTE :: escape_quotes name ++ [DQUOTE]) ++ [LF]
                ++ join [LF] (latest_lines_after Number_toString limit)).
  - exact (join_around [LF] latest_lines_before latest_name_line_start
             (DQUOTE :: escape_quotes name ++ [DQUOTE])
             (latest_lines_after Number_toString limit) ltac:(discriminate)).
  - unfold latest_script_head, latest_script_tail.
    cbn [app]. rewrite <- app_assoc. reflexivity.
Qed.

(** X2. In the scripts of [getMailboxesForAccount] and [getLatestMails]
    the account name stands between two double quotes with only its own
    double quotes escaped.  Read from just after the opening quote, a name
    without backslash is read back unchanged and the reading stops at the
    closing quote, in both scripts.  A name made of a text without backslash
    followed by one backslash is not read back: that backslash and the
    closing quote are read as an escaped quote, and the literal takes in
    the text of the script that follows, up to the end of the next literal
    (in the script of [getMailboxesForAccount] there is one). *)
Theorem account_name_literal (Number_toString : number -> jsstring) (limit : number)
    (p : jsstring) :
  no_backslash p = true ->
  (forall name,
      mailboxes_script name
      = mailboxes_script_head ++ DQUOTE :: escape_quotes name
          ++ DQUOTE :: mailboxes_script_tail)
  /\ (forall name,
      latest_script Number_toString name limit
      = latest_script_head ++ DQUOTE :: escape_quotes name
          ++ DQUOTE :: latest_script_tail Number_toString limit)
  /\ read_literal (skipn (S (length mailboxes_script_head)) (mailboxes_script p))
     = Some (p, mailboxes_script_tail)
  /\ read_literal (skipn (S (length latest_script_head))
                     (latest_script Number_toString p limit))
     = Some (p, latest_script_tail Number_toString limit)
  /\ read_literal (skipn (S (length mailboxes_script_head))
                     (mailboxes_script (p ++ [BACKSLASH])))
     = match read_literal mailboxes_script_tail with
       | Some (more, rest) => Some (p ++ DQUOTE :: more, rest)
       | None => None
       end
  /\ read_literal (skipn (S (length latest_script_head))
                     (latest_script Number_toString (p ++ [BACKSLASH]) limit))
     = match read_literal (latest_script_tail Number_toString limit) with
       | Some (more, rest) => Some (p ++ DQUOTE :: more, rest)
       | None => None
       end
  /\ (exists more rest, read_literal mailboxes_script_tail = Some (more, rest)).
Proof.
  intros Hp.
  split; [exact mailboxes_script_shape|].
  split; [exact (latest_script_shape Number_toString limit)|].
  rewrite !mailboxes_script_shape, !latest_script_shape, !skipn_past_head.
  split; [apply (read_literal_account_name p _ Hp)|].
  split; [apply (read_literal_account_name p _ Hp)|].
  split; [apply (read_literal_account_name p _ Hp)|].
  split; [apply (read_literal_account_name p _ Hp)|].
  vm_compute. eexists. eexists. reflexivity.
Qed.

Lemma account_name_literal_witness :
  read_literal (skipn (S (length mailboxes_script_head)) (mailboxes_script (js "Work")))
  = Some (js "Work", mailboxes_script_tail)
  /\ read_literal (skipn (S (length mailboxes_script_head))
                     (mailboxes_script (js "Work" ++ [BACKSLASH])))
     = match read_literal mailboxes_script_tail with
       | Some (more, rest) => Some (js "Work" ++ DQUOTE :: more, rest)
       | None => None
       end.
Proof.
  destruct (account_name_literal number_text (of_Z 5) (js "Work") eq_refl)
    as (_ & _ & H1 & _ & H2 & _).
  split; [exact H1|exact H2].
Defined.

(** What the reader makes of the account name Work followed by a
    backslash in the script of [getMailboxesForAccount]: the name, a quote
    and the next six lines of the script, up to the quote that opens the
    error text. *)
Example trailing_backslash_takes_in_script_text :
  option_map fst
    (read_literal (skipn (S (length mailboxes_script_head))
                     (mailboxes_script (js "Work" ++ [BACKSLASH]))))
  = Some (js "Work" ++ [DQUOTE; LF]
          ++ join [LF]
               [ js "        set acctMailboxes to every mailbox of targetAccount";
                 js "        repeat with mb in acctMailboxes";
                 js "            set end of boxNames to name of mb";
                 js "        end repeat";
                 js "    on error errMsg";
                 js "        return " ]).
Proof. vm_compute. reflexivity. Qed.

Lemma read_sql_string_escaped (s rest : jsstring) :
  startsWith rest [SQUOTE] = false ->
  read_sql_string (escapeSqlString s ++ SQUOTE :: rest) = Some (s, rest).
Proof.
  intros Hrest. unfold escapeSqlString, replace_char_g.
  induction s as [|x s IH].
  - destruct rest as [|c r]; [reflexivity|].
    destruct (N.eqb_spec c SQUOTE) as [->|Hc]; [destruct r; discriminate Hrest|].
    simpl. rewrite (proj2 (N.eqb_neq _ _) Hc). reflexivity.
  - cbn [flat_map]. destruct (N.eqb_spec x SQUOTE) as [->|Hx].
    + rewrite <- app_assoc. simpl. rewrite IH. reflexivity.
    + rewrite <- app_assoc. simpl. rewrite (proj2 (N.eqb_neq _ _) Hx), IH. reflexivity.
Qed.

(** X3. A string parameter is inserted in a query as a quoted string that
    the query engine reads back as the parameter itself, up to its closing
    quote, provided the query does not go on with a quote right after it;
    [escapeSqlString] is the text between the quotes. *)
Theorem sql_string_literal (s rest : jsstring) :
  startsWith rest [SQUOTE] = false ->
  Database.escaped (PString s) = SQUOTE :: escapeSqlString s ++ [SQUOTE]
  /\ read_sql_string (escapeSqlString s ++ SQUOTE :: rest) = Some (s, rest).
Proof.
  intros Hrest. split; [reflexivity|]. apply read_sql_string_escaped, Hrest.
Qed.

Lemma sql_string_literal_witness :
  Database.escaped (PString (js "it's"))
    = SQUOTE :: escapeSqlString (js "it's") ++ [SQUOTE]
  /\ read_sql_string (escapeSqlString (js "it's") ++ SQUOTE :: js " AND x = 1")
     = Some (js "it's", js " AND x = 1").
Proof.
  apply (sql_string_literal (js "it's") (js " AND x = 1")). reflexivity.
Defined.

Lemma shell_word_quoted_body (s : jsstring) :
  shell_word true (replace_char_g SQUOTE [SQUOTE; BACKSLASH; SQUOTE; SQUOTE] s ++ [SQUOTE])
  = Some s.
Proof.
  unfold replace_char_g. induction s as [|x s IH]; [reflexivity|].
  cbn [flat_map]. destruct (N.eqb_spec x SQUOTE) as [->|Hx].
  - rewrite <- app_assoc. simpl. rewrite IH. reflexivity.
  - rewrite <- app_assoc. simpl. rewrite (proj2 (N.eqb_neq _ _) Hx), IH. reflexivity.
Qed.

(** X4. The shell reads the result of [escapeShellArg] as one word whose
    value is the argument, every character of it protected, whatever the
    argument contains. *)
Theorem escapeShellArg_is_one_word (arg : jsstring) :
  shell_word false (escapeShellArg arg) = Some arg.
Proof.
  unfold escapeShellArg. simpl. apply shell_word_quoted_body.
Qed.

(** *** The lines of a built script *)

Lemma split_without_separator (x : jsstring) :
  no_line_feed x = true -> split LF x = [x].
Proof.
  unfold no_line_feed. induction x as [|c x IH]; simpl; [reflexivity|].
  rewrite andb_true_iff, negb_true_iff. intros [Hc Hx].
  rewrite Hc, (IH Hx). reflexivity.
Qed.

Lemma split_at_separator (x rest : jsstring) :
  no_line_feed x = true -> split LF (x ++ LF :: rest) = x :: split LF rest.
Proof.
  unfold no_line_feed. induction x as [|c x IH]; simpl; [reflexivity|].
  rewrite andb_true_iff, negb_true_iff. intros [Hc Hx].
  rewrite Hc, (IH Hx). reflexivity.
Qed.

Lemma split_join_lines (l : list jsstring) :
  l <> [] -> Forall (fun x => no_line_feed x = true) l -> split LF (join [LF] l) = l.
Proof.
  induction l as [|x l IH]; [congruence|]. intros _ Hall.
  inversion Hall as [|? ? Hx Hl]; subst.
  destruct l as [|y l].
  - simpl. apply split_without_separator, Hx.
  - change (join [LF] (x :: y :: l)) with (x ++ LF :: join [LF] (y :: l)).
    rewrite (split_at_separator x _ Hx), IH; [reflexivity|discriminate|exact Hl].
Qed.

Lemma no_line_feed_app (a b : jsstring) :
  no_line_feed a = true -> no_line_feed b = true -> no_line_feed (a ++ b) = true.
Proof. unfold no_line_feed. intros Ha Hb. rewrite forallb_app, Ha, Hb. reflexivity. Qed.

Lemma escape_no_line_feed (s : jsstring) : no_line_feed (escapeAppleScriptString s) = true.
Proof.
  rewrite escape_is_char_wise. unfold no_line_feed.
  induction s as [|x s IH]; [reflexivity|].
  cbn [flat_map]. rewrite forallb_app, IH, andb_true_r.
  unfold escape_char.
  destruct (N.eqb_spec x BACKSLASH); [reflexivity|].
  destruct (N.eqb_spec x DQUOTE); [reflexivity|].
  destruct (N.eqb_spec x LF) as [|Hlf]; [reflexivity|].
  destruct (N.eqb_spec x CR); [reflexivity|].
  destruct (N.eqb_spec x TAB); [reflexivity|].
  simpl. rewrite (proj2 (N.eqb_neq _ _) Hlf). reflexivity.
Qed.

Lemma identifier_no_line_feed (s : jsstring) :
  no_line_feed (escapeAppleScriptIdentifier s) = true.
Proof.
  unfold no_line_feed, escapeAppleScriptIdentifier.
  induction s as [|x s IH]; [reflexivity|]. simpl.
  destruct (is_identifier_char x) eqn:Hx; [|exact IH].
  simpl. rewrite IH, andb_true_r.
  destruct (N.eqb_spec x LF) as [->|]; [discriminate Hx|reflexivity].
Qed.

(** Proves that a line put together from fixed texts, escaped texts and
    filtered names holds no line feed. *)
Ltac line_feed_free :=
  repeat first
    [ apply escape_no_line_feed
    | apply identifier_no_line_feed
    | reflexivity
    | apply no_line_feed_app ].





(** X6. The script that [sendMail] builds has eight lines, one more for a
    copy recipient and one more for a blind-copy recipient, whatever the
    address, the subject and the body contain: no value can add a line. *)
Theorem send_script_line_count (to subject body cc bcc : jsstring)
    (validatedCc validatedBcc : option jsstring) :
  length (split LF (Mail.send_script (escapeAppleScriptString to)
                      (escapeAppleScriptString subject) (escapeAppleScriptString body)
                      (escapeAppleScriptString cc) (escapeAppleScriptString bcc)
                      validatedCc validatedBcc))
  = 8 + (if truthy_opt validatedCc then 1 else 0) + (if truthy_opt validatedBcc then 1 else 0).
Proof.
  unfold send_script, build, endTell, raw, tell, push.
  destruct (truthy_opt validatedCc); destruct (truthy_opt validatedBcc); cbn [script app];
    (rewrite split_join_lines;
     [reflexivity | discriminate | repeat (constructor; [line_feed_free|]); constructor]).
Qed.

(** *** The scan for dangerous patterns *)

Lemma match_here_extends (s : jsstring) :
  forall (p : list re_item) (b : jsstring),
    match_here p s = true -> match_here p (s ++ b) = true.
Proof.
  induction s as [|x s IH]; intros p b H.
  - destruct p as [|[c|] p]; [destruct b; reflexivity|discriminate H|discriminate H].
  - destruct p as [|[c|] p]; [reflexivity| |].
    + simpl in *. apply andb_true_iff in H. destruct H as [Hc Hs].
      rewrite Hc, (IH _ _ Hs). reflexivity.
    + cbn [match_here app] in *. apply andb_true_iff in H. destruct H as [Hw Hs].
      rewrite Hw. apply orb_true_iff in Hs. cbn [andb]. apply orb_true_iff.
      destruct Hs as [Hs|Hs]; [left|right]; apply IH, Hs.
Qed.

Lemma test_extends_right (p : list re_item) (s b : jsstring) :
  test p s = true -> test p (s ++ b) = true.
Proof.
  induction s as [|x s IH]; intros H.
  - simpl in H. rewrite orb_false_r in H.
    destruct p as [|[c|] p]; [destruct b; reflexivity|discriminate H|discriminate H].
  - cbn [test app] in *. apply orb_true_iff in H. apply orb_true_iff.
    destruct H as [H|H]; [left; apply (match_here_extends (x :: s)), H|right; apply IH, H].
Qed.

Lemma test_extends_left (p : list re_item) (a s : jsstring) :
  test p s = true -> test p (a ++ s) = true.
Proof.
  intros H. induction a as [|x a IH]; [exact H|].
  cbn [test app]. rewrite IH. apply orb_true_r.
Qed.

(** X7. A text that contains a dangerous pattern is still found dangerous
    when anything is written before or after it: padding cannot hide a
    signature from the scan. *)
Theorem dangerous_pattern_survives_padding (before s after : jsstring) :
  containsDangerousPattern s = true ->
  containsDangerousPattern (before ++ s ++ after) = true.
Proof.
  unfold containsDangerousPattern. rewrite !existsb_exists.
  intros (p & Hin & Hp). exists p. split; [exact Hin|].
  apply test_extends_left, test_extends_right, Hp.
Qed.

Lemma dangerous_pattern_survives_padding_witness :
  containsDangerousPattern (js "say hi; " ++ js "do shell script" ++ js " later") = true.
Proof.
  apply (dangerous_pattern_survives_padding (js "say hi; ") (js "do shell script") (js " later")).
  vm_compute. reflexivity.
Defined.

(** Decides the comparisons of a character with constants. *)
Ltac char_cases :=
  repeat match goal with
         | |- context [N.eqb ?a ?b] => destruct (N.eqb_spec a b); try lia
         | |- context [N.leb ?a ?b] => destruct (N.leb_spec a b); try lia
         end;
  try reflexivity.

Lemma ascii_upper_idempotent (x : N) : ascii_upper (ascii_upper x) = ascii_upper x.
Proof.
  unfold ascii_upper.
  destruct (N.leb_spec 97 x); destruct (N.leb_spec x 122); cbn [andb];
    try (destruct (N.leb_spec 97 x); destruct (N.leb_spec x 122); cbn [andb]; (reflexivity || lia)).
  destruct (N.leb_spec 97 (x - 32)); destruct (N.leb_spec (x - 32) 122); cbn [andb];
    (reflexivity || lia).
Qed.

Lemma is_whitespace_letter (x : N) : (65 <= x <= 122)%N -> is_whitespace x = false.
Proof. intros H. unfold is_whitespace. char_cases. Qed.

Lemma is_whitespace_upper (x : N) : is_whitespace (ascii_upper x) = is_whitespace x.
Proof.
  unfold ascii_upper.
  destruct (N.leb_spec 97 x); destruct (N.leb_spec x 122); cbn [andb]; try reflexivity.
  rewrite !is_whitespace_letter by lia. reflexivity.
Qed.

Lemma match_here_upper (s : jsstring) :
  forall p, match_here p (List.map ascii_upper s) = match_here p s.
Proof.
  induction s as [|x s IH]; intros p; [reflexivity|].
  destruct p as [|[c|] p]; [reflexivity| |]; cbn [match_here List.map].
  - unfold chr_eq_i. rewrite ascii_upper_idempotent, IH. reflexivity.
  - rewrite is_whitespace_upper, !IH. reflexivity.
Qed.

Lemma test_upper (p : list re_item) (s : jsstring) :
  test p (List.map ascii_upper s) = test p s.
Proof.
  induction s as [|x s IH]; [reflexivity|].
  cbn [test List.map]. rewrite IH.
  change (ascii_upper x :: List.map ascii_upper s) with (List.map ascii_upper (x :: s)).
  rewrite match_here_upper. reflexivity.
Qed.

(** X8. The scan does not depend on the case of ASCII letters: two texts
    that differ only in the case of their letters are either both found
    dangerous or both found harmless. *)
Theorem dangerous_pattern_ignores_case (s s' : jsstring) :
  List.map ascii_upper s = List.map ascii_upper s' ->
  containsDangerousPattern s = containsDangerousPattern s'.
Proof.
  intros H. unfold containsDangerousPattern.
  assert (Hs : forall t, existsb (fun pattern => test pattern t) DANGEROUS_PATTERNS
                         = existsb (fun pattern => test pattern (List.map ascii_upper t))
                             DANGEROUS_PATTERNS).
  { intros t. induction DANGEROUS_PATTERNS as [|p ps IH]; [reflexivity|].
    cbn [existsb]. rewrite test_upper, IH. reflexivity. }
  rewrite (Hs s), (Hs s'), H. reflexivity.
Qed.

Lemma dangerous_pattern_ignores_case_witness :
  containsDangerousPattern (js "Drop Table x") = containsDangerousPattern (js "dROP tABLE X").
Proof.
  apply (dangerous_pattern_ignores_case (js "Drop Table x") (js "dROP tABLE X")).
  vm_compute. reflexivity.
Defined.

(** *** Trimming *)

Lemma trimStart_length (s : jsstring) : length (trimStart s) <= length s.
Proof.
  induction s as [|x s IH]; simpl; [lia|].
  destruct (is_whitespace x); simpl; lia.
Qed.

Lemma trimStart_idempotent (s : jsstring) : trimStart (trimStart s) = trimStart s.
Proof.
  induction s as [|x s IH]; [reflexivity|]. simpl.
  destruct (is_whitespace x) eqn:Hx; [exact IH|]. simpl. rewrite Hx. reflexivity.
Qed.

Lemma trimStart_snoc (l : jsstring) (x : N) :
  is_whitespace x = false -> trimStart (l ++ [x]) = trimStart l ++ [x].
Proof.
  intros Hx. induction l as [|c l IH]; simpl; [rewrite Hx; reflexivity|].
  destruct (is_whitespace c); [exact IH|reflexivity].
Qed.

Lemma trimEnd_cons (x : N) (t : jsstring) :
  is_whitespace x = false -> trimEnd (x :: t) = x :: trimEnd t.
Proof.
  intros Hx. unfold trimEnd. simpl rev.
  rewrite (trimStart_snoc _ x Hx), rev_app_distr. reflexivity.
Qed.

Lemma trimEnd_idempotent (t : jsstring) : trimEnd (trimEnd t) = trimEnd t.
Proof. unfold trimEnd. rewrite rev_involutive, trimStart_idempotent. reflexivity. Qed.

Lemma trimStart_head (s : jsstring) :
  trimStart s = [] \/ exists x t, trimStart s = x :: t /\ is_whitespace x = false.
Proof.
  induction s as [|x s IH]; [left; reflexivity|]. simpl.
  destruct (is_whitespace x) eqn:Hx; [exact IH|]. right. eauto.
Qed.

Lemma trim_idempotent (s : jsstring) : trim (trim s) = trim s.
Proof.
  unfold trim. destruct (trimStart_head s) as [H|(x & t & H & Hx)]; rewrite H.
  - reflexivity.
  - rewrite (trimEnd_cons x t Hx). simpl trimStart. rewrite Hx.
    rewrite (trimEnd_cons x _ Hx), trimEnd_idempotent. reflexivity.
Qed.

Lemma trim_length (s : jsstring) : length (trim s) <= length s.
Proof.
  unfold trim, trimEnd. rewrite length_rev.
  etransitivity; [apply trimStart_length|]. rewrite length_rev. apply trimStart_length.
Qed.

Lemma trimStart_all_whitespace (s : jsstring) :
  forallb is_whitespace s = true -> trimStart s = [].
Proof.
  induction s as [|x s IH]; [reflexivity|]. simpl.
  rewrite andb_true_iff. intros [Hx Hs]. rewrite Hx. apply IH, Hs.
Qed.

(** *** What the validators let through *)

(** X9. A search query that [validateSearchQuery] accepts comes back
    trimmed: the result is the trimmed input, it has at most 500 characters,
    no white space at either end and no dangerous pattern, and the input
    as given had between 1 and 500 characters. *)
Theorem validated_search_query (query v : jsstring) :
  validateSearchQuery query = Ok v ->
  v = trim query
  /\ trim v = v
  /\ length v <= 500
  /\ containsDangerousPattern v = false
  /\ 1 <= length query <= 500.
Proof.
  unfold validateSearchQuery, zparse, searchQuerySchema.
  cbn [zchecks ztransform flat_map zissue].
  destruct (Nat.ltb_spec (length query) 1) as [|Hmin];
    destruct (Nat.ltb_spec 500 (length query)) as [|Hmax];
    cbn [app rethrow_validation]; try discriminate.
  destruct (containsDangerousPattern (trim query)) eqn:Hd; cbn [rethrow_validation];
    [discriminate|].
  intros H. inversion H; subst v. clear H.
  split; [reflexivity|]. split; [apply trim_idempotent|].
  split; [pose proof (trim_length query); lia|].
  split; [exact Hd|lia].
Qed.

Lemma validated_search_query_witness :
  js "budget 2024" = trim (js "  budget 2024 ")
  /\ trim (js "budget 2024") = js "budget 2024"
  /\ length (js "budget 2024") <= 500
  /\ containsDangerousPattern (js "budget 2024") = false
  /\ 1 <= length (js "  budget 2024 ") <= 500.
Proof.
  apply (validated_search_query (js "  budget 2024 ") (js "budget 2024")).
  vm_compute. reflexivity.
Defined.

(** X10. The test that a search query is not empty is made before the
    trimming: an input of 1 to 500 white-space characters is accepted, and
    the validated query is the empty text. *)
Theorem blank_search_query_is_accepted (query : jsstring) :
  forallb is_whitespace query = true ->
  1 <= length query <= 500 ->
  validateSearchQuery query = Ok [].
Proof.
  intros Hws [Hmin Hmax].
  unfold validateSearchQuery, zparse, searchQuerySchema.
  cbn [zchecks ztransform flat_map zissue].
  destruct (Nat.ltb_spec (length query) 1); [lia|].
  destruct (Nat.ltb_spec 500 (length query)); [lia|].
  cbn [app]. unfold trim. rewrite (trimStart_all_whitespace query Hws). reflexivity.
Qed.

Lemma blank_search_query_is_accepted_witness :
  validateSearchQuery (js "   ") = Ok [].
Proof.
  apply (blank_search_query_is_accepted (js "   ")); [reflexivity|simpl; lia].
Defined.

Lemma phone_char_not_plus (c : N) : is_phone_char c = true -> N.eqb c PLUS = false.
Proof.
  intros H. destruct (N.eqb_spec c PLUS) as [->|]; [discriminate H|reflexivity].
Qed.

Lemma keep_digits_of_phone_chars (body : jsstring) :
  forallb is_phone_char body = true ->
  keep_digits_and_plus body = List.filter is_digit body.
Proof.
  unfold keep_digits_and_plus. induction body as [|c body IH]; [reflexivity|]. simpl.
  rewrite andb_true_iff. intros [Hc Hb].
  rewrite (phone_char_not_plus c Hc), orb_false_r, (IH Hb). reflexivity.
Qed.

Lemma filter_digits_are_digits (s : jsstring) :
  forallb is_digit (List.filter is_digit s) = true.
Proof.
  induction s as [|c s IH]; [reflexivity|]. simpl.
  destruct (is_digit c) eqn:Hc; [simpl; rewrite Hc; exact IH|exact IH].
Qed.

Lemma filter_length_le {A} (f : A -> bool) (l : list A) :
  length (List.filter f l) <= length l.
Proof.
  induction l as [|x l IH]; simpl; [lia|]. destruct (f x); simpl; lia.
Qed.

Lemma startsWith_empty (s : jsstring) : startsWith s [] = true.
Proof. destruct s; reflexivity. Qed.

Lemma filter_digits_skips_plus (t : jsstring) :
  List.filter is_digit (PLUS :: t) = List.filter is_digit t.
Proof. reflexivity. Qed.

(** X11. A phone number that [validatePhoneNumber] accepts comes back as
    the digits of the input, in their order, with a plus sign in front
    exactly when the input began with one, and nothing else; the input had
    10 to 20 characters and the result has no more than the input. *)
Theorem validated_phone_number (phone v : jsstring) :
  validatePhoneNumber phone = Ok v ->
  v = (if startsWith phone [PLUS] then [PLUS] else []) ++ List.filter is_digit phone
  /\ forallb is_digit (List.filter is_digit phone) = true
  /\ length v <= length phone
  /\ 10 <= length phone <= 20.
Proof.
  unfold validatePhoneNumber, zparse_more, phoneNumberSchema.
  cbn [zchecks_more ztransform_more flat_map zissue_more zissue].
  destruct (Nat.ltb_spec (length phone) 10) as [|Hmin];
    destruct (Nat.ltb_spec 20 (length phone)) as [|Hmax];
    cbn [app]; try discriminate.
  destruct (phone_pattern phone) eqn:Hp; cbn [app]; [|discriminate].
  intros H. inversion H; subst v. clear H.
  split; [|split; [apply filter_digits_are_digits|split; [apply filter_length_le|lia]]].
  unfold phone_pattern in Hp. destruct phone as [|c t]; [discriminate Hp|].
  cbn [startsWith]. rewrite startsWith_empty, andb_true_r.
  destruct (N.eqb_spec c PLUS) as [->|Hc].
  - destruct t as [|c2 t]; [discriminate Hp|].
    change (keep_digits_and_plus (PLUS :: c2 :: t))
      with (PLUS :: keep_digits_and_plus (c2 :: t)).
    rewrite (keep_digits_of_phone_chars _ Hp), filter_digits_skips_plus. reflexivity.
  - apply keep_digits_of_phone_chars, Hp.
Qed.

Lemma validated_phone_number_witness :
  js "+15551234567"
  = (if startsWith (js "+1 (555) 123-4567") [PLUS] then [PLUS] else [])
    ++ List.filter is_digit (js "+1 (555) 123-4567")
  /\ forallb is_digit (List.filter is_digit (js "+1 (555) 123-4567")) = true
  /\ length (js "+15551234567") <= length (js "+1 (555) 123-4567")
  /\ 10 <= length (js "+1 (555) 123-4567") <= 20.
Proof.
  apply (validated_phone_number (js "+1 (555) 123-4567") (js "+15551234567")).
  vm_compute. reflexivity.
Defined.

(** X12. The length limits of a phone number count the characters of the
    input, not its digits: an input of 10 to 20 separators (spaces, dashes,
    brackets, dots) without a single digit is accepted, and the validated
    number is the empty text. *)
Theorem phone_number_without_digits (phone : jsstring) :
  forallb (fun c => is_phone_char c && negb (is_digit c)) phone = true ->
  10 <= length phone <= 20 ->
  validatePhoneNumber phone = Ok [].
Proof.
  intros Hsep [Hmin Hmax].
  assert (Hchars : forallb is_phone_char phone = true
                   /\ List.filter is_digit phone = []).
  { clear Hmin Hmax. induction phone as [|c t IH]; [split; reflexivity|].
    simpl in Hsep. rewrite !andb_true_iff, negb_true_iff in Hsep.
    destruct Hsep as [[Hc Hd] Ht]. destruct (IH Ht) as [H1 H2].
    simpl. rewrite Hc, Hd, H1, H2. split; reflexivity. }
  destruct Hchars as [Hall Hnone].
  unfold validatePhoneNumber, zparse_more, phoneNumberSchema.
  cbn [zchecks_more ztransform_more flat_map zissue_more zissue].
  destruct (Nat.ltb_spec (length phone) 10); [lia|].
  destruct (Nat.ltb_spec 20 (length phone)); [lia|].
  assert (Hp : phone_pattern phone = true).
  { unfold phone_pattern. destruct phone as [|c t]; [simpl in Hmin; lia|].
    simpl in Hall. apply andb_true_iff in Hall. destruct Hall as [Hc Ht].
    rewrite (phone_char_not_plus c Hc). simpl. rewrite Hc, Ht. reflexivity. }
  rewrite Hp. cbn [app].
  rewrite (keep_digits_of_phone_chars phone Hall), Hnone. reflexivity.
Qed.

Lemma phone_number_without_digits_witness :
  validatePhoneNumber (js "(--) .. (--)") = Ok [].
Proof.
  apply (phone_number_without_digits (js "(--) .. (--)")); [reflexivity|simpl; lia].
Defined.

(** *** RateLimiter, any sequence of calls *)

Lemma check_keeps_invariant (m w : Z) (seen : list (Z * jsstring)) (rl : RateLimiter)
    (t : Z) (k : jsstring) :
  limiter_invariant m w seen rl ->
  limiter_invariant m w (seen ++ [(t, k)]) (snd (check rl t k)).
Proof.
  intros (Hm & Hw & Hentries).
  assert (Hold : forall k' e, limits rl !! k' = Some e ->
                   (1 <= count e <= Z.max 1 m)%Z
                   /\ exists t', In (t', k') (seen ++ [(t, k)]) /\ resetAt e = (t' + w)%Z).
  { intros k' e He. destruct (Hentries k' e He) as (Hc & t' & Hin & Hr).
    split; [exact Hc|]. exists t'. split; [apply in_or_app; left; exact Hin|exact Hr]. }
  assert (Hfresh : forall k' e,
             <[k := {| count := 1; resetAt := t + windowMs rl |}]> (limits rl) !! k' = Some e ->
             (1 <= count e <= Z.max 1 m)%Z
             /\ exists t', In (t', k') (seen ++ [(t, k)]) /\ resetAt e = (t' + w)%Z).
  { intros k' e. destruct (decide (k = k')) as [<-|Hne].
    - rewrite lookup_insert_eq. intros He. inversion He; subst e. simpl. split; [lia|].
      exists t. split; [apply in_or_app; right; left; reflexivity|rewrite Hw; reflexivity].
    - rewrite lookup_insert_ne by exact Hne. apply Hold. }
  unfold check. destruct (limits rl !! k) as [e|] eqn:He.
  - destruct (resetAt e <=? t)%Z;
      [simpl; split; [exact Hm|split; [exact Hw|exact Hfresh]]|].
    destruct (count e >=? maxRequests rl)%Z eqn:Hge;
      [simpl; split; [exact Hm|split; [exact Hw|exact Hold]]|].
    split; [exact Hm|]. split; [exact Hw|].
    intros k' e'. unfold set_limits; cbn [snd limits].
    destruct (decide (k = k')) as [<-|Hne].
    + rewrite lookup_insert_eq. intros He'. inversion He'; subst e'. simpl.
      destruct (Hold k e He) as (Hc & t' & Hin & Hr).
      split; [|exists t'; split; assumption].
      assert (count e < maxRequests rl)%Z
        by (destruct (Z.geb_spec (count e) (maxRequests rl)); [discriminate|assumption]).
      lia.
    + rewrite lookup_insert_ne by exact Hne. apply Hold.
  - simpl. split; [exact Hm|split; [exact Hw|exact Hfresh]].
Qed.

Lemma run_checks_keeps_invariant (m w : Z) (calls : list (Z * jsstring)) :
  forall (seen : list (Z * jsstring)) (rl : RateLimiter),
    limiter_invariant m w seen rl ->
    limiter_invariant m w (seen ++ calls) (run_checks rl calls).
Proof.
  induction calls as [|[t k] calls IH]; intros seen rl H.
  - rewrite app_nil_r. exact H.
  - simpl. replace (seen ++ (t, k) :: calls) with ((seen ++ [(t, k)]) ++ calls)
      by (rewrite <- app_assoc; reflexivity).
    apply IH, check_keeps_invariant, H.
Qed.

(** X13. Whatever calls are made on a limiter, at whatever times and on
    whatever keys, its limit and window never change, only keys that were
    checked have an entry, every entry counts at least 1 and at most the
    limit (1 when the limit is lower), and every window ends exactly one
    window length after one of the calls made on its key. *)
Theorem rate_limiter_invariant (m w : Z) (calls : list (Z * jsstring)) :
  limiter_invariant m w calls (run_checks (newRateLimiter m w) calls).
Proof.
  apply (run_checks_keeps_invariant m w calls [] (newRateLimiter m w)).
  split; [reflexivity|]. split; [reflexivity|].
  intros k e He. simpl in He. rewrite lookup_empty in He. discriminate.
Qed.

Lemma check_other_key (rl : RateLimiter) (t : Z) (k k' : jsstring) :
  k <> k' -> limits (snd (check rl t k)) !! k' = limits rl !! k'.
Proof.
  intros Hne. unfold check.
  destruct (limits rl !! k) as [e|]; [|simpl; apply lookup_insert_ne, Hne].
  destruct (resetAt e <=? t)%Z; [simpl; apply lookup_insert_ne, Hne|].
  destruct (count e >=? maxRequests rl)%Z; [reflexivity|].
  simpl. apply lookup_insert_ne, Hne.
Qed.

(** X14. The keys of a limiter are independent: after any sequence of
    calls none of which is on a given key, the entry of that key, or its
    absence, is what it was. *)
Theorem rate_limiter_keys_independent (calls : list (Z * jsstring)) (rl : RateLimiter)
    (key : jsstring) :
  Forall (fun call => snd call <> key) calls ->
  limits (run_checks rl calls) !! key = limits rl !! key.
Proof.
  revert rl. induction calls as [|[t k] calls IH]; intros rl H; [reflexivity|].
  inversion H as [|? ? Hk Hrest]; subst. simpl in *.
  rewrite (IH _ Hrest). apply check_other_key, Hk.
Qed.

Lemma rate_limiter_keys_independent_witness :
  limits (run_checks (search rateLimiters) [(0%Z, js "alice"); (5%Z, js "bob")]) !! js "global"
  = limits (search rateLimiters) !! js "global".
Proof.
  apply (rate_limiter_keys_independent [(0%Z, js "alice"); (5%Z, js "bob")]
           (search rateLimiters) (js "global")).
  repeat constructor; discriminate.
Defined.

(** X15. After [reset(key)] the next call on the key is allowed whatever
    the key had used up, and opens a new window with count 1; the entries of
    the other keys are not touched by the reset. *)
Theorem reset_opens_fresh_window (rl : RateLimiter) (key : jsstring) (now : Z) :
  fst (check (reset rl key) now key) = true
  /\ limits (snd (check (reset rl key) now key)) !! key
     = Some {| count := 1; resetAt := now + windowMs rl |}
  /\ forall other, other <> key -> limits (reset rl key) !! other = limits rl !! other.
Proof.
  assert (Hnone : limits (reset rl key) !! key = None) by (simpl; apply lookup_delete_eq).
  rewrite (check_first_use (reset rl key) now key Hnone).
  split; [reflexivity|]. split.
  - simpl. apply lookup_insert_eq.
  - intros other Hne. simpl. apply lookup_delete_ne. congruence.
Qed.

Lemma check_all_cons (rl : RateLimiter) (key : jsstring) (t : Z) (ts : list Z) :
  fst (check_all rl key (t :: ts))
  = fst (check rl t key) :: fst (check_all (snd (check rl t key)) key ts).
Proof.
  simpl. destruct (check rl t key) as [b rl1]. simpl.
  destruct (check_all rl1 key ts) as [bs rl2]. reflexivity.
Qed.

Lemma window_answers (ts : list Z) :
  forall (rl : RateLimiter) (key : jsstring) (e : RateLimitEntry),
    limits rl !! key = Some e ->
    Forall (fun t => (t < resetAt e)%Z) ts ->
    fst (check_all rl key ts)
    = repeat true (Nat.min (length ts) (Z.to_nat (maxRequests rl - count e)))
      ++ repeat false (length ts - Z.to_nat (maxRequests rl - count e)).
Proof.
  induction ts as [|t ts IH]; intros rl key e He Hts; [reflexivity|].
  inversion Hts as [|? ? Ht Hts']; subst.
  rewrite check_all_cons.
  destruct (Z_lt_le_dec (count e) (maxRequests rl)) as [Hlt|Hge].
  - rewrite (check_counted rl t key e He Ht Hlt). cbn [fst snd].
    rewrite (IH _ key {| count := count e + 1; resetAt := resetAt e |});
      [|simpl; apply lookup_insert_eq|exact Hts'].
    cbn [maxRequests set_limits count length].
    replace (Z.to_nat (maxRequests rl - count e))
      with (S (Z.to_nat (maxRequests rl - (count e + 1)))) by lia.
    reflexivity.
  - rewrite (check_denied rl t key e He Ht Hge). cbn [fst snd].
    rewrite (IH rl key e He Hts'). cbn [length].
    replace (Z.to_nat (maxRequests rl - count e)) with 0 by lia.
    rewrite !Nat.min_0_r, !Nat.sub_0_r. reflexivity.
Qed.

(** X16. On a key without entry, of any number of calls made inside the
    window that the first of them opens, the first [maxRequests] are allowed
    and every later one is refused; a limiter whose limit is below 1 still
    allows the first call. *)
Theorem window_allows_exactly_the_limit (rl : RateLimiter) (key : jsstring) (t1 : Z)
    (ts : list Z) :
  limits rl !! key = None ->
  Forall (fun t => (t < t1 + windowMs rl)%Z) ts ->
  fst (check_all rl key (t1 :: ts))
  = repeat true (Nat.min (length (t1 :: ts)) (Z.to_nat (Z.max 1 (maxRequests rl))))
    ++ repeat false (length (t1 :: ts) - Z.to_nat (Z.max 1 (maxRequests rl))).
Proof.
  intros Hnone Hts. rewrite check_all_cons, (check_first_use rl t1 key Hnone). cbn [fst snd].
  rewrite (window_answers ts _ key {| count := 1; resetAt := t1 + windowMs rl |});
    [|simpl; apply lookup_insert_eq|exact Hts].
  cbn [maxRequests set_limits count length].
  replace (Z.to_nat (Z.max 1 (maxRequests rl))) with (S (Z.to_nat (maxRequests rl - 1))) by lia.
  reflexivity.
Qed.

Lemma window_allows_exactly_the_limit_witness :
  fst (check_all (write rateLimiters) (js "global") [0; 1; 2; 3; 4; 5; 6]%Z)
  = repeat true (Nat.min 7 (Z.to_nat (Z.max 1 5))) ++ repeat false (7 - Z.to_nat (Z.max 1 5)).
Proof.
  apply (window_allows_exactly_the_limit (write rateLimiters) (js "global") 0%Z
           [1; 2; 3; 4; 5; 6]%Z).
  - apply lookup_empty.
  - repeat constructor.
Defined.

(** *** AuditLogger *)

(** X17. [getRecentLogs(count)] with a count of 1 or more returns the last
    [count] entries, all of them when there are fewer, in the order in which
    they were logged; right after [log] a count of 1 returns the entry just
    written; a count of 0 returns the whole log, not an empty list. *)
Theorem recent_logs_are_a_suffix (l : AuditLogger) (count : Z) :
  (1 <= count)%Z ->
  (exists older, logs l = older ++ getRecentLogs l (Some count))
  /\ length (getRecentLogs l (Some count)) = Nat.min (Z.to_nat count) (length (logs l))
  /\ (forall now operation user details success error,
        getRecentLogs (log l now operation user details success error) (Some 1%Z)
        = [ {| timestamp := now; operation := operation; user := user; details := details;
               success := success; error := error |} ])
  /\ getRecentLogs l (Some 0%Z) = logs l.
Proof.
  intros Hc. unfold getRecentLogs, slice_from.
  split; [|split; [|split]].
  - destruct (Z.ltb_spec (- count) 0); [|lia].
    exists (firstn (Z.to_nat (Z.max (Z.of_nat (length (logs l)) + - count) 0)) (logs l)).
    symmetry. apply firstn_skipn.
  - destruct (Z.ltb_spec (- count) 0); [|lia]. rewrite length_skipn. lia.
  - intros now operation user details success error.
    cbn [log logs]. change (- (1) <? 0)%Z with true. cbv iota.
    rewrite length_app. cbn [length].
    replace (Z.to_nat (Z.max (Z.of_nat (length (logs l) + 1) + - (1)) 0))
      with (length (logs l)) by lia.
    rewrite skipn_app, skipn_all, Nat.sub_diag. reflexivity.
  - change (- 0 <? 0)%Z with false. cbv iota.
    replace (Z.to_nat (Z.min (- 0) (Z.of_nat (length (logs l))))) with 0 by lia.
    reflexivity.
Qed.

Lemma recent_logs_are_a_suffix_witness :
  (exists older, logs {| logs := [] |} = older ++ getRecentLogs {| logs := [] |} (Some 3%Z))
  /\ length (getRecentLogs {| logs := [] |} (Some 3%Z))
     = Nat.min (Z.to_nat 3) (length (logs {| logs := [] |}))
  /\ (forall now operation user details success error,
        getRecentLogs (log {| logs := [] |} now operation user details success error) (Some 1%Z)
        = [ {| timestamp := now; operation := operation; user := user; details := details;
               success := success; error := error |} ])
  /\ getRecentLogs {| logs := [] |} (Some 0%Z) = logs {| logs := [] |}.
Proof.
  apply (recent_logs_are_a_suffix {| logs := [] |} 3%Z). lia.
Defined.

(** *** Limits and configuration *)

Lemma Qlt_bool_false (a b : Q) : Qlt_bool a b = false -> (b <= a)%Q.
Proof.
  unfold Qlt_bool. rewrite negb_false_iff. apply Qle_bool_iff.
Qed.

Lemma Qlt_bool_true (a b : Q) : Qlt_bool a b = true -> (a < b)%Q.
Proof.
  unfold Qlt_bool. rewrite negb_true_iff. intros H.
  apply Qnot_le_lt. intros Hle. apply Qle_bool_iff in Hle. congruence.
Qed.

(** X18. When the maximum is a finite number of 10 or more, the sanitized
    limit is a finite number between 1 and the maximum, whatever the limit
    asked for, [NaN] and the infinities included. *)
Theorem sanitized_limit_in_range (limit : number) (m : Q) :
  (10 <= m)%Q ->
  exists r : Q,
    Security.sanitizeLimit limit (Some (Fin m)) = Fin r /\ (1 <= r)%Q /\ (r <= m)%Q.
Proof.
  intros Hm.
  assert (H1m : (1 <= m)%Q) by (apply Qle_trans with 10%Q; [discriminate|exact Hm]).
  destruct limit as [|[|]|q].
  - exists 10%Q. split; [reflexivity|]. split; [discriminate|exact Hm].
  - exists 10%Q. split; [reflexivity|]. split; [discriminate|exact Hm].
  - exists m. split; [reflexivity|]. split; [exact H1m|apply Qle_refl].
  - rewrite sanitizeLimit_finite. destruct (Qlt_le_dec q 1) as [Hlt|Hge].
    + exists 10%Q. split; [reflexivity|]. split; [discriminate|exact Hm].
    + unfold Num.min, of_Z, Num.ltb.
      destruct (Qlt_bool m (inject_Z (Qfloor q))) eqn:Hcmp.
      * exists m. split; [reflexivity|]. split; [exact H1m|apply Qle_refl].
      * exists (inject_Z (Qfloor q)). split; [reflexivity|]. split.
        -- change 1%Q with (inject_Z 1). rewrite <- Zle_Qle.
           change 1%Z with (Qfloor 1). apply Qfloor_resp_le, Hge.
        -- apply Qlt_bool_false, Hcmp.
Qed.

Lemma sanitized_limit_in_range_witness :
  exists r : Q,
    Security.sanitizeLimit (Inf false) (Some (Fin 25%Q)) = Fin r /\ (1 <= r)%Q /\ (r <= 25)%Q.
Proof.
  apply (sanitized_limit_in_range (Inf false) 25%Q). discriminate.
Defined.

(** X19. A [MAX_SEARCH_RESULTS] that is unset or empty gives the maximum
    100.  One that is set to a text in which no number can be read gives the
    maximum [NaN], and then every limit of 1 or more asked of [searchMails]
    is sanitized to [NaN] instead of a number. *)
Theorem unreadable_maximum_gives_NaN (env : gmap (list N) (list N)) (text : jsstring)
    (limit : number) :
  env !! js "MAX_SEARCH_RESULTS" = Some text ->
  text <> [] ->
  parseInt10 text = NaN ->
  isNaN (Num.floor limit) = false ->
  Num.ltb (Num.floor limit) (of_Z 1) = false ->
  Security.sanitizeLimit limit (Some (maxSearchResults (securityConfig env))) = NaN
  /\ maxSearchResults (securityConfig (delete (js "MAX_SEARCH_RESULTS") env)) = of_Z 100
  /\ maxSearchResults (securityConfig (<[js "MAX_SEARCH_RESULTS" := []]> env)) = of_Z 100.
Proof.
  intros Henv Hne Hnan Hn Hl. split; [|split].
  - unfold Security.sanitizeLimit, securityConfig. cbn [maxSearchResults].
    rewrite Henv, Hn, Hl. cbn [orb].
    destruct text as [|c t]; [congruence|]. cbn [env_or]. rewrite Hnan.
    destruct (Num.floor limit); reflexivity.
  - unfold securityConfig. cbn [maxSearchResults]. rewrite lookup_delete_eq. reflexivity.
  - unfold securityConfig. cbn [maxSearchResults]. rewrite lookup_insert_eq. reflexivity.
Qed.

Lemma unreadable_maximum_gives_NaN_witness :
  Security.sanitizeLimit (of_Z 5)
    (Some (maxSearchResults (securityConfig {[ js "MAX_SEARCH_RESULTS" := js "many" ]}))) = NaN
  /\ maxSearchResults
       (securityConfig (delete (js "MAX_SEARCH_RESULTS")
                          {[ js "MAX_SEARCH_RESULTS" := js "many" ]})) = of_Z 100
  /\ maxSearchResults
       (securityConfig (<[js "MAX_SEARCH_RESULTS" := []]>
                          {[ js "MAX_SEARCH_RESULTS" := js "many" ]})) = of_Z 100.
Proof.
  apply (unreadable_maximum_gives_NaN {[ js "MAX_SEARCH_RESULTS" := js "many" ]} (js "many")
           (of_Z 5)).
  - apply lookup_singleton_eq.
  - discriminate.
  - reflexivity.
  - reflexivity.
  - reflexivity.
Defined.

(** X20. Rate limiting is switched off by the text false and by nothing
    else: any other value of [ENABLE_RATE_LIMITING], such as FALSE, 0 or the
    empty text, and its absence leave it on; the same holds of audit logging
    and [ENABLE_AUDIT_LOGGING]. *)
Theorem toggles_need_exact_false (env : gmap (list N) (list N)) :
  (enableRateLimiting (securityConfig env) = false
   <-> env !! js "ENABLE_RATE_LIMITING" = Some (js "false"))
  /\ (enableAuditLogging (securityConfig env) = false
      <-> env !! js "ENABLE_AUDIT_LOGGING" = Some (js "false")).
Proof.
  unfold securityConfig. cbn [enableRateLimiting enableAuditLogging]. unfold env_not_false.
  split.
  - destruct (env !! js "ENABLE_RATE_LIMITING") as [s|]; [|split; discriminate].
    rewrite negb_false_iff, eqb_string_eq. split; congruence.
  - destruct (env !! js "ENABLE_AUDIT_LOGGING") as [s|]; [|split; discriminate].
    rewrite negb_false_iff, eqb_string_eq. split; congruence.
Qed.

(** *** Queries *)

(** X21. When every numeric parameter is an integer of magnitude at most
    2^53 and no string parameter holds a question mark or a dollar sign,
    the query that [executeSqliteQuery] builds is the template with its
    placeholders filled from left to right, the i-th placeholder by the
    literal of the i-th parameter; parameters in excess are dropped and
    placeholders in excess are left as they are. *)
Theorem plain_parameters_fill_placeholders_in_order (query : jsstring)
    (parameters : list param) :
  forallb safe_integer_param parameters = true ->
  forallb plain_param parameters = true ->
  parameterizedQuery query parameters = substitute_positional query parameters.
Proof.
  intros _ H. apply parameterizedQuery_plain_params, H.
Qed.

Lemma plain_parameters_fill_placeholders_in_order_witness :
  parameterizedQuery (js "SELECT * FROM t WHERE a = ? AND b = ?")
    [PString (js "o'neil"); PNumber (-7); PString (js "unused")]
  = substitute_positional (js "SELECT * FROM t WHERE a = ? AND b = ?")
      [PString (js "o'neil"); PNumber (-7); PString (js "unused")].
Proof.
  apply (plain_parameters_fill_placeholders_in_order
           (js "SELECT * FROM t WHERE a = ? AND b = ?")
           [PString (js "o'neil"); PNumber (-7); PString (js "unused")]).
  - reflexivity.
  - reflexivity.
Defined.

(** What positional substitution gives on a sample: the quote of the first
    value is doubled, the number is printed in decimal, the third parameter
    is dropped. *)
Example plain_parameters_sample :
  parameterizedQuery (js "SELECT * FROM t WHERE a = ? AND b = ?")
    [PString (js "o'neil"); PNumber (-7); PString (js "unused")]
  = js "SELECT * FROM t WHERE a = 'o''neil' AND b = -7".
Proof. vm_compute. reflexivity. Qed.

Lemma substitute_placeholder_list (vs : list jsstring) (x : jsstring) (rest : jsstring) :
  substitute_positional
    (join [COMMA] (List.map (fun _ => [QMARK]) (x :: vs)) ++ rest)
    (List.map PString (x :: vs))
  = join [COMMA] (List.map (fun v => escaped (PString v)) (x :: vs))
    ++ substitute_positional rest [].
Proof.
  revert x. induction vs as [|y vs IH]; intros x.
  - cbn [List.map join app substitute_positional]. rewrite N.eqb_refl. reflexivity.
  - change (join [COMMA] (List.map (fun _ => [QMARK]) (x :: y :: vs)) ++ rest)
      with (QMARK :: COMMA :: (join [COMMA] (List.map (fun _ => [QMARK]) (y :: vs)) ++ rest)).
    change (List.map PString (x :: y :: vs)) with (PString x :: List.map PString (y :: vs)).
    cbn [substitute_positional]. rewrite N.eqb_refl.
    change (N.eqb COMMA QMARK) with false. cbv iota.
    rewrite IH.
    change (join [COMMA] (List.map (fun v => escaped (PString v)) (x :: y :: vs)))
      with (escaped (PString x) ++ [COMMA]
            ++ join [COMMA] (List.map (fun v => escaped (PString v)) (y :: vs))).
    rewrite <- !app_assoc. reflexivity.
Qed.

(** X22. [buildSafeInClause] returns as many placeholders as parameters,
    and the parameters are the values, in order.  Substituted into the
    clause by [executeSqliteQuery], values without question mark or dollar
    sign give the bracketed list of their quoted literals, separated by
    commas; without any value the clause is (NULL). *)
Theorem in_clause_matches_its_parameters (values : list jsstring) :
  count_occ N.eq_dec (fst (buildSafeInClause values)) QMARK = length (snd (buildSafeInClause values))
  /\ snd (buildSafeInClause values) = values
  /\ (forallb (forallb plain_char) values = true ->
      parameterizedQuery (fst (buildSafeInClause values))
        (List.map PString (snd (buildSafeInClause values)))
      = match values with
        | [] => js "(NULL)"
        | _ => js "(" ++ join [COMMA] (List.map (fun v => escaped (PString v)) values) ++ js ")"
        end).
Proof.
  destruct values as [|x vs]; [repeat split; reflexivity|].
  cbn [buildSafeInClause fst snd]. split; [|split; [reflexivity|]].
  - change (js "(") with [40%N]. change (js ")") with [41%N].
    cbn [app count_occ]. destruct (N.eq_dec 40%N QMARK) as [Hbad|_]; [discriminate Hbad|].
    rewrite count_occ_app. cbn [count_occ].
    destruct (N.eq_dec 41%N QMARK) as [Hbad|_]; [discriminate Hbad|].
    rewrite Nat.add_0_r. revert x.
    induction vs as [|y vs IH]; intros x; [reflexivity|].
    change (join [COMMA] (List.map (fun _ => [QMARK]) (x :: y :: vs)))
      with (QMARK :: COMMA :: join [COMMA] (List.map (fun _ : jsstring => [QMARK]) (y :: vs))).
    cbn [count_occ]. destruct (N.eq_dec QMARK QMARK) as [_|Hbad]; [|congruence].
    destruct (N.eq_dec COMMA QMARK) as [Hbad|_]; [discriminate Hbad|].
    rewrite IH. reflexivity.
  - intros Hplain. rewrite parameterizedQuery_plain_params.
    + change (js "(") with [40%N]. cbn [app substitute_positional].
      change (N.eqb 40 QMARK) with false. cbv iota.
      rewrite substitute_placeholder_list. reflexivity.
    + rewrite <- Hplain. clear. generalize (x :: vs). intros l.
      induction l as [|v l IH]; [reflexivity|]. simpl. rewrite IH. reflexivity.
Qed.

Lemma in_clause_matches_its_parameters_witness :
  count_occ N.eq_dec (fst (buildSafeInClause [js "a"; js "b'c"])) QMARK
  = length (snd (buildSafeInClause [js "a"; js "b'c"]))
  /\ snd (buildSafeInClause [js "a"; js "b'c"]) = [js "a"; js "b'c"]
  /\ parameterizedQuery (fst (buildSafeInClause [js "a"; js "b'c"]))
       (List.map PString (snd (buildSafeInClause [js "a"; js "b'c"])))
     = js "(" ++ join [COMMA] (List.map (fun v => escaped (PString v)) [js "a"; js "b'c"])
       ++ js ")".
Proof.
  destruct (in_clause_matches_its_parameters [js "a"; js "b'c"]) as (H1 & H2 & H3).
  split; [exact H1|]. split; [exact H2|]. apply H3. reflexivity.
Defined.

(** *** The mail operations, continued *)

Lemma try_catch_wraps {A} (m : M A) (prefix : jsstring) (w : World) (e : JsError) :
  fst (try_catch m (fun error => throw (Error (prefix ++ error_message error))) w) = Throw e ->
  exists message, e = Error (prefix ++ message).
Proof.
  unfold try_catch, throw. destruct (m w) as [[a|e1] w1]; simpl; intros H; [discriminate|].
  inversion H. eauto.
Qed.

Lemma logs_at_most_one_keeps {A} (P : AuditLogEntry -> Prop) (m : M A) :
  keeps_audit m -> logs_at_most_one P m.
Proof. intros H w. left. rewrite H. reflexivity. Qed.

Lemma logs_at_most_one_bind {A B} (P : AuditLogEntry -> Prop) (m : M A) (k : A -> M B) :
  keeps_audit m -> (forall a, logs_at_most_one P (k a)) -> logs_at_most_one P (bind m k).
Proof.
  intros Hm Hk w. unfold bind. specialize (Hm w).
  destruct (m w) as [[a|e] w1]; simpl in *; [|left; rewrite Hm; reflexivity].
  rewrite <- Hm. apply Hk.
Qed.

Lemma logs_at_most_one_bind_lift {A B} (P : AuditLogEntry -> Prop) (r : result A)
    (k : A -> M B) :
  (forall a, r = Ok a -> logs_at_most_one P (k a)) -> logs_at_most_one P (bind (lift r) k).
Proof.
  intros Hk w. unfold bind, lift. destruct r as [a|e]; [apply (Hk a eq_refl)|left; reflexivity].
Qed.

Lemma logs_at_most_one_try_catch {A} (P : AuditLogEntry -> Prop) (m : M A)
    (h : JsError -> M A) :
  logs_at_most_one P m -> (forall e, keeps_audit (h e)) -> logs_at_most_one P (try_catch m h).
Proof.
  intros Hm Hh w. unfold try_catch. specialize (Hm w).
  destruct (m w) as [[a|e] w1]; simpl in *; [exact Hm|].
  replace (audit (snd (h e w1))) with (audit w1) by (symmetry; apply Hh). exact Hm.
Qed.

Lemma validateMessageContent_unchanged (content v : jsstring) :
  validateMessageContent content = Ok v -> v = content.
Proof.
  unfold validateMessageContent, zparse, messageContentSchema.
  cbn [zchecks ztransform flat_map zissue].
  destruct (Nat.ltb (length content) 1); destruct (Nat.ltb 10000 (length content));
    cbn [app rethrow_validation]; try discriminate.
  destruct (containsDangerousPattern content); cbn [rethrow_validation]; [discriminate|].
  intros H. inversion H. reflexivity.
Qed.

Lemma preserves_ret {X A} (part : World -> X) (a : A) : preserves part (ret a).
Proof. intros w; reflexivity. Qed.

Lemma preserves_throw {X A} (part : World -> X) (e : JsError) : preserves part (@throw A e).
Proof. intros w; reflexivity. Qed.

Lemma preserves_bind {X A B} (part : World -> X) (m : M A) (k : A -> M B) :
  preserves part m -> (forall a, preserves part (k a)) -> preserves part (bind m k).
Proof.
  intros Hm Hk w. unfold bind. specialize (Hm w).
  destruct (m w) as [[a|e] w1]; simpl in *; [|exact Hm].
  rewrite Hk. exact Hm.
Qed.

Lemma preserves_try_catch {X A} (part : World -> X) (m : M A) (h : JsError -> M A) :
  preserves part m -> (forall e, preserves part (h e)) -> preserves part (try_catch m h).
Proof.
  intros Hm Hh w. unfold try_catch. specialize (Hm w).
  destruct (m w) as [[a|e] w1]; simpl in *; [exact Hm|].
  rewrite Hh. exact Hm.
Qed.

Lemma split_from_name (name : jsstring) :
  forall cur rest,
    no_comma name = true ->
    split_from (js ", ") 0 cur (name ++ rest) = split_from (js ", ") 0 (rev name ++ cur) rest.
Proof.
  change (js ", ") with [COMMA; 32%N].
  unfold no_comma. induction name as [|c name IH]; intros cur rest Hn; [reflexivity|].
  simpl in Hn. rewrite andb_true_iff, negb_true_iff in Hn. destruct Hn as [Hc Hn].
  cbn [app split_from startsWith]. rewrite Hc. cbn [andb].
  rewrite (IH (c :: cur) rest Hn). cbn [rev]. rewrite <- app_assoc. reflexivity.
Qed.

Lemma split_from_separator (cur rest : jsstring) :
  split_from (js ", ") 0 cur (js ", " ++ rest) = rev cur :: split_from (js ", ") 0 [] rest.
Proof. destruct rest; reflexivity. Qed.

Lemma split_string_names (names : list jsstring) (x : jsstring) :
  Forall (fun name => no_comma name = true) (x :: names) ->
  split_string (js ", ") (join (js ", ") (x :: names)) = x :: names.
Proof.
  unfold split_string. revert x. induction names as [|y names IH]; intros x Hall.
  - inversion Hall as [|? ? Hx _]; subst. cbn [join].
    rewrite <- (app_nil_r x) at 1. rewrite (split_from_name x [] [] Hx).
    cbn [split_from]. rewrite app_nil_r, rev_involutive. reflexivity.
  - inversion Hall as [|? ? Hx Hrest]; subst.
    change (join (js ", ") (x :: y :: names)) with (x ++ js ", " ++ join (js ", ") (y :: names)).
    rewrite (split_from_name x [] _ Hx), split_from_separator, app_nil_r, rev_involutive.
    rewrite (IH y Hrest). reflexivity.
Qed.

Section MoreMailProperties.

Variable runAppleScript_answer : list ExternalCall -> Script -> result jsstring.
Variable run_mails_answer : list ExternalCall -> JxaCall -> result (list EmailMessage).
Variable run_send_answer : list ExternalCall -> JxaCall -> result jsstring.
Variable JSON_parse : jsstring -> result jsvalue.
Variable Date_toString : Z -> jsstring.
Variable Number_toString : number -> jsstring.
Variable zod_email : jsstring -> bool.
Variable securityConfig : SecurityConfig.

(** X23. [checkMailAccess] never answers false: it either answers true or
    throws an error whose message begins with the fixed text that says Mail
    cannot be accessed, so the branches taken by its callers on a false
    answer are never run.  It makes between one and four script calls and
    leaves the limiters and the audit log alone. *)
Theorem checkMailAccess_true_or_throws (w : World) :
  (fst (checkMailAccess runAppleScript_answer w) = Ok true
   \/ exists message,
        fst (checkMailAccess runAppleScript_answer w)
        = Throw (Error (js "Cannot access Mail app. Please make sure Mail is running and properly configured. Error: "
                          ++ message)))
  /\ (exists made, calls (snd (checkMailAccess runAppleScript_answer w)) = calls w ++ made
                   /\ 1 <= length made <= 4)
  /\ limiters (snd (checkMailAccess runAppleScript_answer w)) = limiters w
  /\ audit (snd (checkMailAccess runAppleScript_answer w)) = audit w.
Proof.
  unfold checkMailAccess, try_catch, bind, runAppleScript, ret, throw.
  repeat match goal with
         | |- context [match runAppleScript_answer ?c ?s with _ => _ end] =>
             destruct (runAppleScript_answer c s)
         | |- context [if ?b then _ else _] => destruct b
         end;
    cbn [fst snd calls limiters audit add_call];
    (split; [first [left; reflexivity | right; eexists; reflexivity]|]);
    (split; [|split; reflexivity]);
    rewrite <- ?app_assoc; eexists; (split; [reflexivity|simpl; lia]).
Qed.

(** X24. Whatever goes wrong in [getUnreadMails], [searchMails],
    [sendMail], [getAccounts] or [getMailboxesForAccount], the caller
    receives a plain [Error] whose message begins with the text proper to
    the operation; no other kind of error leaves these operations. *)
Theorem operations_throw_prefixed_errors (w : World) (e : JsError) :
  (forall limit,
      fst (getUnreadMails runAppleScript_answer run_mails_answer JSON_parse Date_toString
             limit w) = Throw e ->
      exists message, e = Error (js "Error accessing mail: " ++ message))
  /\ (forall searchTerm limit,
      fst (searchMails runAppleScript_answer run_mails_answer JSON_parse Date_toString
             securityConfig searchTerm limit w) = Throw e ->
      exists message, e = Error (js "Error searching mail: " ++ message))
  /\ (forall to subject body cc bcc,
      fst (sendMail runAppleScript_answer run_send_answer zod_email securityConfig
             to subject body cc bcc w) = Throw e ->
      exists message, e = Error (js "Error sending mail: " ++ message))
  /\ (fst (getAccounts runAppleScript_answer w) = Throw e ->
      exists message, e = Error (js "Error getting mail accounts: " ++ message))
  /\ (forall accountName,
      fst (getMailboxesForAccount runAppleScript_answer accountName w) = Throw e ->
      exists message,
        e = Error (js "Error getting mailboxes for account " ++ accountName ++ js ": "
                     ++ message)).
Proof.
  split; [|split; [|split; [|split]]].
  - intros limit. apply try_catch_wraps.
  - intros searchTerm limit. apply try_catch_wraps.
  - intros to subject body cc bcc. apply try_catch_wraps.
  - apply try_catch_wraps.
  - intros accountName. unfold getMailboxesForAccount, try_catch, throw.
    match goal with
    | |- context [match ?m w with _ => _ end] => destruct (m w) as [[a|e1] w1]
    end; simpl; intros H; [discriminate|].
    inversion H. eauto.
Qed.

(** X25. [getLatestMails] never throws: when Mail cannot be accessed, when
    the script fails and when the script answers a text that begins with
    Error:, the caller receives the empty list, as when there is no mail. *)
Theorem getLatestMails_never_throws (account : jsstring) (limit : option number) (w : World) :
  (exists l, fst (getLatestMails runAppleScript_answer Date_toString Number_toString
                    account limit w) = Ok l)
  /\ (forall e w1,
        checkMailAccess runAppleScript_answer w = (Throw e, w1) ->
        fst (getLatestMails runAppleScript_answer Date_toString Number_toString
               account limit w) = Ok [])
  /\ (forall w1 e,
        checkMailAccess runAppleScript_answer w = (Ok true, w1) ->
        runAppleScript_answer (calls w1)
          (BuiltScript (latest_script Number_toString account
                          (match limit with Some l => l | None => of_Z 5 end)))
        = Throw e ->
        fst (getLatestMails runAppleScript_answer Date_toString Number_toString
               account limit w) = Ok [])
  /\ (forall w1 text,
        checkMailAccess runAppleScript_answer w = (Ok true, w1) ->
        runAppleScript_answer (calls w1)
          (BuiltScript (latest_script Number_toString account
                          (match limit with Some l => l | None => of_Z 5 end)))
        = Ok text ->
        startsWith text (js "Error:") = true ->
        fst (getLatestMails runAppleScript_answer Date_toString Number_toString
               account limit w) = Ok []).
Proof.
  unfold getLatestMails, try_catch, bind.
  split; [|split; [|split]].
  - destruct (checkMailAccess runAppleScript_answer w) as [[access|e] w1];
      [|eexists; reflexivity].
    destruct (negb access); [eexists; reflexivity|].
    unfold runAppleScript at 1.
    destruct (runAppleScript_answer (calls w1) _) as [text|e]; [|eexists; reflexivity].
    destruct (startsWith text (js "Error:")); eexists; reflexivity.
  - intros e w1 H. rewrite H. reflexivity.
  - intros w1 e Hacc Hans. rewrite Hacc. cbn [negb].
    unfold runAppleScript at 1. rewrite Hans. reflexivity.
  - intros w1 text Hacc Hans Hstart. rewrite Hacc. cbn [negb].
    unfold runAppleScript at 1. rewrite Hans, Hstart. reflexivity.
Qed.

Lemma check_refusal_changes_nothing (rl : RateLimiter) (t : Z) (k : jsstring) :
  fst (check rl t k) = false -> check rl t k = (false, rl).
Proof.
  unfold check. destruct (limits rl !! k) as [e|]; [|discriminate].
  destruct (resetAt e <=? t)%Z; [discriminate|].
  destruct (count e >=? maxRequests rl)%Z; [reflexivity|discriminate].
Qed.

(** X26. With rate limiting on and an accepted search term: when the
    search limiter refuses, [searchMails] throws the rate-limit error and
    leaves the whole state as it was, the global limiter and the outside
    world untouched; when the search limiter allows and the global limiter
    refuses, it throws the same error, no script is run, but the call has
    been counted by the search limiter. *)
Theorem searchMails_rate_limited (searchTerm v : jsstring) (limit : option number) (w : World) :
  validateSearchQuery searchTerm = Ok v ->
  enableRateLimiting securityConfig = true ->
  (fst (check (search (limiters w)) (now w) (js "global")) = false ->
   searchMails runAppleScript_answer run_mails_answer JSON_parse Date_toString
     securityConfig searchTerm limit w
   = (Throw (Error (js "Error searching mail: Rate limit exceeded. Please try again later.")),
      w))
  /\ (fst (check (search (limiters w)) (now w) (js "global")) = true ->
      fst (check (global (limiters w)) (now w) (js "global")) = false ->
      searchMails runAppleScript_answer run_mails_answer JSON_parse Date_toString
        securityConfig searchTerm limit w
      = (Throw (Error (js "Error searching mail: Rate limit exceeded. Please try again later.")),
         set_limiters w
           {| messages := messages (limiters w);
              emails := emails (limiters w);
              search := snd (check (search (limiters w)) (now w) (js "global"));
              write := write (limiters w);
              global := global (limiters w) |})).
Proof.
  intros Hv Hcfg. unfold searchMails, try_catch, bind, lift. rewrite Hv, Hcfg.
  unfold check_search. split.
  - intros Hs. rewrite (check_refusal_changes_nothing _ _ _ Hs). cbn [negb throw].
    destruct w as [[ms es ss ws gs] a n c]. reflexivity.
  - intros Hs Hg.
    destruct (check (search (limiters w)) (now w) (js "global")) as [b rl1] eqn:Hc.
    cbn [fst snd] in *. subst b. cbn [negb].
    unfold check_global. cbn [limiters set_limiters global now].
    rewrite (check_refusal_changes_nothing _ _ _ Hg). cbn [negb throw]. reflexivity.
Qed.

(** Goes through a computation that does not log. *)
Ltac audit_step :=
  first
    [ apply keeps_bind; [|intros ?]
    | apply keeps_try_catch; [|intros ?]
    | apply keeps_runAppleScript
    | apply keeps_run_mails
    | apply keeps_run_send
    | apply keeps_newDateString
    | apply (keeps_checkMailAccess _ Date_toString)
    | apply (keeps_validate_optional_email Date_toString)
    | solve [auto with audit]
    | match goal with
      | |- keeps_audit (if ?b then _ else _) => destruct b
      | |- keeps_audit (match ?x with _ => _ end) => destruct x
      end ].

(** X27. Whatever its inputs and whatever the outside world answers,
    [sendMail] writes at most one audit entry.  An entry it writes is named
    sendMail, is marked as a success, carries no error text, and holds of
    the subject only its first 50 characters. *)
Theorem sendMail_logs_one_success_at_most (to subject body : jsstring)
    (cc bcc : option jsstring) :
  logs_at_most_one (sendMail_entry subject)
    (sendMail runAppleScript_answer run_send_answer zod_email securityConfig
       to subject body cc bcc).
Proof.
  unfold sendMail.
  apply logs_at_most_one_try_catch; [|intros ?; apply keeps_throw].
  apply logs_at_most_one_bind_lift; intros validatedTo _.
  apply logs_at_most_one_bind_lift; intros validatedSubject Hsubject.
  apply validateMessageContent_unchanged in Hsubject. subst validatedSubject.
  apply logs_at_most_one_bind_lift; intros validatedBody _.
  apply logs_at_most_one_bind; [apply (keeps_validate_optional_email Date_toString)|intros validatedCc].
  apply logs_at_most_one_bind; [apply (keeps_validate_optional_email Date_toString)|intros validatedBcc].
  apply logs_at_most_one_bind; [repeat audit_step|intros _].
  apply logs_at_most_one_bind; [apply (keeps_checkMailAccess _ Date_toString)|intros access].
  destruct (negb access); [apply logs_at_most_one_keeps, keeps_throw|].
  apply logs_at_most_one_bind; [apply keeps_runAppleScript|intros _].
  cbv zeta.
  apply logs_at_most_one_try_catch; [|intros ?; repeat audit_step].
  apply logs_at_most_one_bind; [apply keeps_runAppleScript|intros result].
  destruct (eqb_string result (js "success")); [|apply logs_at_most_one_keeps, keeps_ret].
  destruct (enableAuditLogging securityConfig);
    [|apply logs_at_most_one_keeps; repeat audit_step].
  intros w. right. eexists. split; [|reflexivity].
  unfold sendMail_entry. cbn [operation success error details].
  repeat split. exists (substring0 50 subject).
  split; [right; left; reflexivity|].
  split; [unfold substring0; rewrite length_firstn; lia|reflexivity].
Qed.

Lemma preserves_guards_runAppleScript (s : Script) :
  preserves guards (runAppleScript runAppleScript_answer s).
Proof. intros w; reflexivity. Qed.

Lemma preserves_guards_run_mails (c : JxaCall) :
  preserves guards (run_mails run_mails_answer c).
Proof. intros w; reflexivity. Qed.

Lemma preserves_guards_newDateString : preserves guards (newDateString Date_toString).
Proof. intros w; reflexivity. Qed.

(** Goes through a computation that touches neither limiters nor log. *)
Ltac guards_step :=
  first
    [ apply preserves_bind; [|intros ?]
    | apply preserves_try_catch; [|intros ?]
    | apply preserves_guards_runAppleScript
    | apply preserves_guards_run_mails
    | apply preserves_guards_newDateString
    | apply preserves_ret
    | apply preserves_throw
    | match goal with
      | |- preserves _ (if ?b then _ else _) => destruct b
      | |- preserves _ (match ?x with _ => _ end) => destruct x
      end ].

Lemma preserves_guards_checkMailAccess :
  preserves guards (checkMailAccess runAppleScript_answer).
Proof. unfold checkMailAccess. repeat guards_step. Qed.

(** X28. [getUnreadMails], [getAccounts], [getMailboxesForAccount] and
    [getLatestMails] consult no rate limiter and write no audit entry,
    whatever they are given and whatever the outcome: the limiters and the
    audit log are after the call what they were before it. *)
Theorem read_operations_are_unguarded (w : World) :
  (forall limit,
      guards (snd (getUnreadMails runAppleScript_answer run_mails_answer JSON_parse
                     Date_toString limit w)) = guards w)
  /\ guards (snd (getAccounts runAppleScript_answer w)) = guards w
  /\ (forall accountName,
      guards (snd (getMailboxesForAccount runAppleScript_answer accountName w)) = guards w)
  /\ (forall account limit,
      guards (snd (getLatestMails runAppleScript_answer Date_toString Number_toString
                     account limit w)) = guards w).
Proof.
  split; [|split; [|split]].
  - intros limit. revert w. change (preserves guards
      (getUnreadMails runAppleScript_answer run_mails_answer JSON_parse Date_toString limit)).
    unfold getUnreadMails. repeat first [apply preserves_guards_checkMailAccess | guards_step].
  - revert w. change (preserves guards (getAccounts runAppleScript_answer)).
    unfold getAccounts. repeat first [apply preserves_guards_checkMailAccess | guards_step].
  - intros accountName. revert w.
    change (preserves guards (getMailboxesForAccount runAppleScript_answer accountName)).
    unfold getMailboxesForAccount.
    repeat first [apply preserves_guards_checkMailAccess | guards_step].
  - intros account limit. revert w.
    change (preserves guards
              (getLatestMails runAppleScript_answer Date_toString Number_toString account limit)).
    unfold getLatestMails.
    repeat first [apply preserves_guards_checkMailAccess | guards_step].
Qed.

(** X29. When the answer of the unread-mail script begins with a brace or
    a bracket and [JSON.parse] rejects it, the scan for records is not
    made: if the answer contains both field names, [getUnreadMails] returns
    the one diagnostic record, even for an answer in which the scan would
    have found records. *)
Theorem unparsable_json_skips_record_scan (limit : number) (w w1 : World) (raw : jsstring)
    (e : JsError) :
  checkMailAccess runAppleScript_answer w = (Ok true, w1) ->
  runAppleScript_answer (calls w1) (UnreadScript limit) = Ok raw ->
  startsWith raw [LBRACE] || startsWith raw [LBRACKET] = true ->
  JSON_parse raw = Throw e ->
  includes raw (js "subject") = true ->
  includes raw (js "sender") = true ->
  getUnreadMails runAppleScript_answer run_mails_answer JSON_parse Date_toString
    (Some limit) w
  = (Ok [debug_record (JStr (Date_toString (now w1))) raw],
     add_call w1 (CallScript (UnreadScript limit))).
Proof.
  intros Hacc Hraw Hstart Hjson Hs1 Hs2.
  unfold getUnreadMails, try_catch, bind. rewrite Hacc. cbn [negb].
  unfold runAppleScript at 1. rewrite Hraw.
  unfold newDateString, ret. cbn [now add_call].
  unfold unread_from_script, unread_parse, unread_json_branch.
  rewrite Hstart, Hjson, Hs1, Hs2.
  destruct (_ && _); reflexivity.
Qed.

(** X30. When the script of [getAccounts] answers the names of the
    accounts separated by a comma and a space, the operation returns these
    names, provided no name holds a comma and the answer is not empty; an
    empty answer gives the empty list. *)
Theorem getAccounts_returns_the_names (w w1 : World) (first : jsstring)
    (others : list jsstring) :
  checkMailAccess runAppleScript_answer w = (Ok true, w1) ->
  Forall (fun name => no_comma name = true) (first :: others) ->
  join (js ", ") (first :: others) <> [] ->
  (runAppleScript_answer (calls w1) (BuiltScript accounts_script)
   = Ok (join (js ", ") (first :: others)) ->
   fst (getAccounts runAppleScript_answer w) = Ok (first :: others))
  /\ (runAppleScript_answer (calls w1) (BuiltScript accounts_script) = Ok [] ->
      fst (getAccounts runAppleScript_answer w) = Ok []).
Proof.
  intros Hacc Hnames Hne. unfold getAccounts, try_catch, bind. rewrite Hacc. cbn [negb].
  unfold runAppleScript. split; intros Hans; rewrite Hans; [|reflexivity].
  unfold ret. cbn [fst]. f_equal. unfold split_names.
  destruct (join (js ", ") (first :: others)) eqn:Hj; [congruence|].
  rewrite <- Hj. apply split_string_names, Hnames.
Qed.

End MoreMailProperties.

(** *** Concrete runs of the further properties *)

Lemma operations_throw_prefixed_errors_witness :
  exists message,
    Error (js "Error searching mail: Invalid search query")
    = Error (js "Error searching mail: " ++ message).
Proof.
  apply (proj1 (proj2 (operations_throw_prefixed_errors (scripts_answering []) no_mails
                         jxa_send_works json_rejects date_zero any_email default_config
                         initial_world
                         (Error (js "Error searching mail: Invalid search query"))))
           [] None).
  reflexivity.
Defined.

Lemma getLatestMails_never_throws_witness :
  fst (getLatestMails scripts_fail date_zero number_text (js "Work") None initial_world)
  = Ok [].
Proof.
  eapply (proj1 (proj2 (getLatestMails_never_throws scripts_fail date_zero number_text
                          (js "Work") None initial_world))).
  reflexivity.
Defined.

Lemma searchMails_rate_limited_witness :
  searchMails (scripts_answering []) no_mails json_rejects date_zero default_config
    (js "budget") None search_used_up
  = (Throw (Error (js "Error searching mail: Rate limit exceeded. Please try again later.")),
     search_used_up)
  /\ calls (snd (searchMails (scripts_answering []) no_mails json_rejects date_zero
                   default_config (js "budget") None global_used_up)) = []
  /\ limits (search (limiters
               (snd (searchMails (scripts_answering []) no_mails json_rejects date_zero
                       default_config (js "budget") None global_used_up)))) !! js "global"
     = Some {| count := 1; resetAt := 60000 |}.
Proof.
  split.
  - apply (proj1 (searchMails_rate_limited (scripts_answering []) no_mails json_rejects
                    date_zero default_config (js "budget") (js "budget") None search_used_up
                    eq_refl eq_refl)).
    reflexivity.
  - rewrite (proj2 (searchMails_rate_limited (scripts_answering []) no_mails json_rejects
                      date_zero default_config (js "budget") (js "budget") None
                      global_used_up eq_refl eq_refl) eq_refl eq_refl).
    split; reflexivity.
Defined.

Lemma unparsable_json_skips_record_scan_witness :
  getUnreadMails (scripts_answering (js "{subject:Hi, sender:Bob}")) no_mails json_rejects
    date_zero (Some (of_Z 10)) initial_world
  = (Ok [debug_record (JStr (js "Thu Jan 01 1970")) (js "{subject:Hi, sender:Bob}")],
     add_call
       (add_call (add_call initial_world (CallScript CheckMailRunning))
          (CallScript CountMailboxes))
       (CallScript (UnreadScript (of_Z 10))))
  /\ length (unread_record_branch (JStr (js "Thu Jan 01 1970"))
               (js "{subject:Hi, sender:Bob}")) = 1.
Proof.
  split; [|vm_compute; reflexivity].
  apply (unparsable_json_skips_record_scan
           (scripts_answering (js "{subject:Hi, sender:Bob}")) no_mails json_rejects date_zero
           (of_Z 10) initial_world
           (add_call (add_call initial_world (CallScript CheckMailRunning))
              (CallScript CountMailboxes))
           (js "{subject:Hi, sender:Bob}") (Error (js "Unexpected token")));
    reflexivity.
Defined.

Lemma getAccounts_returns_the_names_witness :
  fst (getAccounts (built_scripts_answering (js "Work, Home, iCloud")) initial_world)
  = Ok [js "Work"; js "Home"; js "iCloud"].
Proof.
  apply (proj1 (getAccounts_returns_the_names
                  (built_scripts_answering (js "Work, Home, iCloud")) initial_world
                  (add_call (add_call initial_world (CallScript CheckMailRunning))
                     (CallScript CountMailboxes))
                  (js "Work") [js "Home"; js "iCloud"]
                  eq_refl
                  ltac:(repeat constructor)
                  ltac:(discriminate))).
  reflexivity.
Defined.
